(** * Ant-colony payment routing: a shallow embedding of [ant_lightning.py]

    The development follows the Python module top to bottom: the mock
    topology ([MockChannel], [MockNetworkGraph]), the solver object
    ([LightningACO]) and its methods ([_initialize_pheromones], [solve],
    [_construct_path], [_select_next_channel], [_update_pheromones]).

    Conventions of the embedding.
    - In the methods, Python floats are idealised as exact rationals
      ([Q]); [float('inf')] is the extra value [Inf] of [float].
      Rounding, overflow and NaN are outside this part of the model, and
      so are the [OverflowError] of [**] and the underflow of a weight to
      [0.0]: the theorems about the methods say which exception is raised
      only where a division by zero forces it, and otherwise speak of
      what a call returns and of what it leaves behind.
    - The arithmetic of the pheromone store ([*=] by [1 - rate], [+] of
      a deposit) is modelled a second time in IEEE 754 double precision
      ([float64], the operations of [SpecFloat] at 53 bits), where
      overflow and NaN are what the program computes.
    - The exponents [alpha] and [beta] are integer valued (as the demo's
      [1.0] and [2.0]); [x ** n] is [pypow], which raises
      [ZeroDivisionError] on [0 ** negative] as Python does.
    - The module-level generator [random] is a fixed stream of draws of
      [random.random()] (what a seed determines) and a cursor into it.
    - A method is a function on a [World] (the solver object, the
      generator, the standard output) that returns a result or a raised
      exception together with the world as it is at that point. *)

From Stdlib Require Import QArith Qpower Lqa ZArith SpecFloat.
From stdpp Require Import gmap strings list fin_maps.

Local Open Scope Q_scope.

(** ** Numbers *)

Inductive float : Type :=
| Fin (q : Q)
| Inf.

(** [a < b] on floats, as the comparison of [solve] needs it. *)
Definition float_ltb (a b : float) : bool :=
  match a, b with
  | Fin x, Fin y => negb (Qle_bool y x)
  | Fin _, Inf => true
  | Inf, _ => false
  end.

(** The order [a <= b] used to state properties of fees. *)
Definition float_le (a b : float) : Prop :=
  match a, b with
  | Fin x, Fin y => x <= y
  | _, Inf => True
  | Inf, Fin _ => False
  end.

(** ** Exceptions and the two monads *)

(** [ValueError] is what a check of the parameters would raise; no method
    raises it.  [LoopBudgetExhausted] is not a Python exception: it marks
    the end of the fuel of [construct_loop]. *)
Inductive exn : Type :=
| ZeroDivisionError
| IndexError
| ValueError
| LoopBudgetExhausted.

Inductive result (A : Type) : Type :=
| Ok (a : A)
| Raise (e : exn).
Arguments Ok {A} a.
Arguments Raise {A} e.

Definition bindR {A B} (m : result A) (k : A -> result B) : result B :=
  match m with
  | Ok a => k a
  | Raise e => Raise e
  end.

Notation "x <~ m ;; k" := (bindR m (fun x => k))
  (at level 100, m at next level, right associativity).

Fixpoint foldlR {A B} (f : A -> B -> result A) (a : A) (xs : list B) : result A :=
  match xs with
  | [] => Ok a
  | x :: xs' => a' <~ f a x ;; foldlR f a' xs'
  end.

Fixpoint mapR {A B} (f : A -> result B) (xs : list A) : result (list B) :=
  match xs with
  | [] => Ok []
  | x :: xs' => y <~ f x ;; ys <~ mapR f xs' ;; Ok (y :: ys)
  end.

(** [a / b] on exact floats. *)
Definition pydiv (a b : Q) : result Q :=
  if Qeq_bool b 0 then Raise ZeroDivisionError else Ok (a / b).

(** [a / b] where [b] may be [float('inf')]. *)
Definition pydiv_float (a : Q) (b : float) : result Q :=
  match b with
  | Fin q => pydiv a q
  | Inf => Ok 0
  end.

(** [x ** n] for an integer-valued exponent. *)
Definition pypow (x : Q) (n : Z) : result Q :=
  if Qeq_bool x 0 && (n <? 0)%Z then Raise ZeroDivisionError else Ok (x ^ n).

(** [1e-9] *)
Definition epsilon : Q := 1 # 1000000000.

(** ** Mock topology *)

Abbreviation node := string.

Record MockChannel : Type := {
  source : node;
  destination : node;
  liquidity : Q;
  base_fee : Q;
  fee_rate : Q
}.

Definition calculate_fee (c : MockChannel) (amount : Q) : Q :=
  base_fee c + amount * fee_rate c.

(** [nodes] is the Python [set]: a duplicate-free list whose order is the
    set's iteration order, which the language leaves unspecified. *)
Record MockNetworkGraph : Type := {
  nodes : list node;
  channels : gmap node (list MockChannel)
}.

Definition MockNetworkGraph_init : MockNetworkGraph :=
  {| nodes := []; channels := ∅ |}.

Definition set_add (x : node) (s : list node) : list node :=
  if bool_decide (x ∈ s) then s else s ++ [x].

Definition add_channel (g : MockNetworkGraph) (src dest : node)
    (liq bfee rate : Q) : MockNetworkGraph :=
  let nodes1 := set_add dest (set_add src (nodes g)) in
  let channels1 :=
    match channels g !! src with
    | None => <[src := []]> (channels g)
    | Some _ => channels g
    end in
  let channel := {| source := src; destination := dest; liquidity := liq;
                    base_fee := bfee; fee_rate := rate |} in
  {| nodes := nodes1;
     channels := <[src := default [] (channels1 !! src) ++ [channel]]> channels1 |}.

Definition get_all_nodes (g : MockNetworkGraph) : list node := nodes g.

Definition get_outgoing_channels (g : MockNetworkGraph) (source_node : node)
    : list MockChannel :=
  default [] (channels g !! source_node).

(** ** The solver object and the world *)

Record LightningACO : Type := {
  graph : MockNetworkGraph;
  num_ants : Z;
  iterations : Z;
  alpha : Z;
  beta : Z;
  evaporation_rate : Q;
  Qconst : Q;
  pheromones : gmap (node * node) Q;
  best_path : option (list node);
  best_path_fee : float
}.

(** [LightningACO.__init__] *)
Definition LightningACO_init (network_graph : MockNetworkGraph)
    (n_ants n_iterations : Z) (a b : Z) (evap_rate : Q) (q : Q) : LightningACO :=
  {| graph := network_graph; num_ants := n_ants; iterations := n_iterations;
     alpha := a; beta := b; evaporation_rate := evap_rate; Qconst := q;
     pheromones := ∅; best_path := None; best_path_fee := Inf |}.

Definition set_pheromones (ph : gmap (node * node) Q) (s : LightningACO) : LightningACO :=
  {| graph := graph s; num_ants := num_ants s; iterations := iterations s;
     alpha := alpha s; beta := beta s; evaporation_rate := evaporation_rate s;
     Qconst := Qconst s; pheromones := ph;
     best_path := best_path s; best_path_fee := best_path_fee s |}.

Definition set_best (p : option (list node)) (f : float) (s : LightningACO) : LightningACO :=
  {| graph := graph s; num_ants := num_ants s; iterations := iterations s;
     alpha := alpha s; beta := beta s; evaporation_rate := evaporation_rate s;
     Qconst := Qconst s; pheromones := pheromones s;
     best_path := p; best_path_fee := f |}.

(** One line of standard output: iteration number, iteration count and
    the best fee, as [solve] prints them. *)
Record line : Type := {
  line_iteration : Z;
  line_iterations : Z;
  line_best_fee : float
}.

Record World : Type := {
  self : LightningACO;
  draws : nat -> Q;
  cursor : nat;
  stdout : list line
}.

Definition set_self (s : LightningACO) (w : World) : World :=
  {| self := s; draws := draws w; cursor := cursor w; stdout := stdout w |}.

Definition M (A : Type) : Type := World -> result A * World.

Definition ret {A} (a : A) : M A := fun w => (Ok a, w).

Definition raise {A} (e : exn) : M A := fun w => (Raise e, w).

Definition bind {A B} (m : M A) (k : A -> M B) : M B :=
  fun w =>
    match m w with
    | (Ok a, w') => k a w'
    | (Raise e, w') => (Raise e, w')
    end.

Notation "x <- m ;; k" := (bind m (fun x => k))
  (at level 100, m at next level, right associativity).
Notation "m ;;; k" := (bind m (fun _ => k))
  (at level 100, right associativity).

Definition lift {A} (r : result A) : M A := fun w => (r, w).

Definition get_self : M LightningACO := fun w => (Ok (self w), w).

Definition modify_self (f : LightningACO -> LightningACO) : M unit :=
  fun w => (Ok tt, set_self (f (self w)) w).

(** [random.uniform(a, b)]: [a + (b - a) * random.random()]. *)
Definition uniform (a b : Q) : M Q :=
  fun w =>
    (Ok (a + (b - a) * draws w (cursor w)),
     {| self := self w; draws := draws w; cursor := S (cursor w); stdout := stdout w |}).

Definition print (l : line) : M unit :=
  fun w =>
    (Ok tt,
     {| self := self w; draws := draws w; cursor := cursor w; stdout := stdout w ++ [l] |}).

(** [for x in xs: body x] *)
Fixpoint for_each {A} (xs : list A) (body : A -> M unit) : M unit :=
  match xs with
  | [] => ret tt
  | x :: xs' => body x ;;; for_each xs' body
  end.

(** [range(n)] *)
Definition range (n : Z) : list Z := map Z.of_nat (seq 0 (Z.to_nat n)).

(** ** [LightningACO._initialize_pheromones] *)

Definition init_channel (ph : gmap (node * node) Q) (channel : MockChannel)
    : gmap (node * node) Q :=
  <[(source channel, destination channel) := 1]> ph.

Definition init_node (g : MockNetworkGraph) (ph : gmap (node * node) Q) (n : node)
    : gmap (node * node) Q :=
  foldl init_channel ph (get_outgoing_channels g n).

Definition _initialize_pheromones : M unit :=
  modify_self (fun s =>
    set_pheromones
      (foldl (init_node (graph s)) (pheromones s) (get_all_nodes (graph s))) s).

(** ** [LightningACO._select_next_channel] *)

(** The body of the loop over the outgoing channels: the accumulator is
    the pair of [probabilities] and [total_prob]. *)
Definition weigh_channel (s : LightningACO) (current_node : node)
    (visited_nodes : list node) (payment_amount : Q)
    (acc : list (MockChannel * Q) * Q) (channel : MockChannel)
    : result (list (MockChannel * Q) * Q) :=
  let next_node := destination channel in
  if negb (bool_decide (next_node ∈ visited_nodes))
     && Qle_bool payment_amount (liquidity channel)
  then
    let fee := calculate_fee channel payment_amount in
    inv <~ pydiv 1 (fee + epsilon) ;;
    heuristic <~ pypow inv (beta s) ;;
    let pheromone_level := default 1 (pheromones s !! (current_node, next_node)) in
    pheromone <~ pypow pheromone_level (alpha s) ;;
    let prob := pheromone * heuristic in
    Ok (fst acc ++ [(channel, prob)], snd acc + prob)
  else Ok acc.

(** The roulette wheel: the first channel whose cumulative probability
    reaches [r], if any. *)
Fixpoint roulette (r cumulative_prob : Q) (probabilities : list (MockChannel * Q))
    : option MockChannel :=
  match probabilities with
  | [] => None
  | (channel, prob) :: rest =>
      let cumulative_prob := cumulative_prob + prob in
      if Qle_bool r cumulative_prob then Some channel
      else roulette r cumulative_prob rest
  end.

Definition _select_next_channel (current_node : node) (visited_nodes : list node)
    (payment_amount : Q) : M (option MockChannel) :=
  s <- get_self ;;
  acc <- lift (foldlR (weigh_channel s current_node visited_nodes payment_amount)
                 ([], 0) (get_outgoing_channels (graph s) current_node)) ;;
  let probabilities := fst acc in
  let total_prob := snd acc in
  if Qeq_bool total_prob 0 then ret None
  else
    probabilities <- lift (mapR (fun cp => p <~ pydiv (snd cp) total_prob ;; Ok (fst cp, p))
                             probabilities) ;;
    r <- uniform 0 1 ;;
    match roulette r 0 probabilities with
    | Some channel => ret (Some channel)
    | None =>
        match last probabilities with
        | Some cp => ret (Some (fst cp))
        | None => raise IndexError
        end
    end.

(** ** [LightningACO._construct_path] *)

(** The [while] loop and the test after it.  [fuel] bounds the number of
    turns; [_construct_path] passes the node count, which the loop guard
    never lets the loop exceed: no call raises [LoopBudgetExhausted]
    ([construct_spec]). *)
Fixpoint construct_loop (fuel : nat) (end_node : node) (payment_amount : Q)
    (max_path_length : nat) (current_node : node) (path : list node)
    (total_fee : Q) : M (option (list node) * float) :=
  if negb (bool_decide (current_node = end_node))
     && (length path <? max_path_length)%nat
  then
    match fuel with
    | O => raise LoopBudgetExhausted
    | S fuel' =>
        next_channel <- _select_next_channel current_node path payment_amount ;;
        match next_channel with
        | None => ret (None, Inf)
        | Some channel =>
            let total_fee := total_fee + calculate_fee channel payment_amount in
            let current_node := destination channel in
            construct_loop fuel' end_node payment_amount max_path_length
              current_node (path ++ [current_node]) total_fee
        end
    end
  else if bool_decide (current_node = end_node)
  then ret (Some path, Fin total_fee)
  else ret (None, Inf).

Definition _construct_path (start_node end_node : node) (payment_amount : Q)
    : M (option (list node) * float) :=
  s <- get_self ;;
  let max_path_length := length (get_all_nodes (graph s)) in
  construct_loop max_path_length end_node payment_amount max_path_length
    start_node [start_node] 0.

(** ** [LightningACO._update_pheromones] *)

(** Evaporation of every level in the store. *)
Definition evaporate (rate : Q) (ph : gmap (node * node) Q) : gmap (node * node) Q :=
  (fun level => level * (1 - rate)) <$> ph.

(** The deposit on one directed edge. *)
Definition deposit (edge : node * node) (amount : Q) (ph : gmap (node * node) Q)
    : gmap (node * node) Q :=
  let current_pheromone := default 0 (ph !! edge) in
  <[edge := current_pheromone + amount]> ph.

(** The pairs [(path[i], path[i+1])] for [i] in [range(len(path) - 1)]. *)
Definition edges_of (path : list node) : list (node * node) :=
  zip path (drop 1 path).

Definition deposit_path (all : list node * float) : M unit :=
  s <- get_self ;;
  pheromone_deposit <- lift (pydiv_float (Qconst s) (snd all)) ;;
  for_each (edges_of (fst all)) (fun edge =>
    modify_self (fun s => set_pheromones (deposit edge pheromone_deposit (pheromones s)) s)).

Definition _update_pheromones (all_paths : list (list node * float)) : M unit :=
  modify_self (fun s =>
    set_pheromones (evaporate (evaporation_rate s) (pheromones s)) s) ;;;
  for_each all_paths deposit_path.

(** ** [LightningACO.solve] *)

(** Python truth value of a path: [None] and the empty list are false. *)
Definition truthy (path : option (list node)) : bool :=
  match path with
  | Some (_ :: _) => true
  | _ => false
  end.

(** One ant: the body of the inner loop, threading [all_paths]. *)
Definition ant (start_node end_node : node) (payment_amount : Q)
    (all_paths : list (list node * float)) : M (list (list node * float)) :=
  r <- _construct_path start_node end_node payment_amount ;;
  let path := fst r in
  let total_fee := snd r in
  if truthy path then
    let all_paths := all_paths ++ [(default [] path, total_fee)] in
    s <- get_self ;;
    (if float_ltb total_fee (best_path_fee s)
     then modify_self (set_best path total_fee)
     else ret tt) ;;;
    ret all_paths
  else ret all_paths.

Fixpoint ants (n : nat) (start_node end_node : node) (payment_amount : Q)
    (all_paths : list (list node * float)) : M (list (list node * float)) :=
  match n with
  | O => ret all_paths
  | S n' =>
      all_paths <- ant start_node end_node payment_amount all_paths ;;
      ants n' start_node end_node payment_amount all_paths
  end.

(** The body of the outer loop. *)
Definition iteration_body (start_node end_node : node) (payment_amount : Q)
    (iteration : Z) : M unit :=
  s <- get_self ;;
  all_paths <- ants (Z.to_nat (num_ants s)) start_node end_node payment_amount [] ;;
  _update_pheromones all_paths ;;;
  s <- get_self ;;
  print {| line_iteration := iteration + 1; line_iterations := iterations s;
           line_best_fee := best_path_fee s |}.

Definition solve (start_node end_node : node) (payment_amount : Q)
    : M (option (list node) * float) :=
  _initialize_pheromones ;;;
  s <- get_self ;;
  for_each (range (iterations s)) (iteration_body start_node end_node payment_amount) ;;;
  s <- get_self ;;
  ret (best_path s, best_path_fee s).

(** * Vocabulary of the properties *)

(** ** Postconditions *)

(** [wp m post w]: running [m] from [w] ends, with a result or a raised
    exception [r] and a world [w'], such that [post r w']. *)
Definition wp {A} (m : M A) (post : result A -> World -> Prop) (w : World) : Prop :=
  post (fst (m w)) (snd (m w)).

(** ** The pheromone store *)

(** Every stored level is positive. *)
Definition positive_store (ph : gmap (node * node) Q) : Prop :=
  forall edge level, ph !! edge = Some level -> 0 < level.

(** The stores that decay and deposit can produce from the initial store
    of a topology. *)
Inductive reachable_store (g : MockNetworkGraph) : gmap (node * node) Q -> Prop :=
| reach_init :
    reachable_store g (foldl (init_node g) ∅ (get_all_nodes g))
| reach_decay rate ph :
    0 <= rate -> rate <= 1 ->
    reachable_store g ph -> reachable_store g (evaporate rate ph)
| reach_deposit edge amount ph :
    0 <= amount ->
    reachable_store g ph -> reachable_store g (deposit edge amount ph).

(** ** Topologies and paths *)

(** Every channel is listed under its own source, as in a topology built
    by [add_channel]. *)
Definition wf_graph (g : MockNetworkGraph) : Prop :=
  forall u c, c ∈ get_outgoing_channels g u -> source c = u.

(** A channel an ant may take: its destination is new and it can carry
    the payment. *)
Definition feasible (visited_nodes : list node) (payment_amount : Q)
    (c : MockChannel) : Prop :=
  (destination c ∉ visited_nodes) /\ (payment_amount <= liquidity c).

(** [hop g amount u v]: some channel listed under [u] leads to [v] and
    can carry [amount]. *)
Definition hop (g : MockNetworkGraph) (payment_amount : Q) (u v : node) : Prop :=
  exists c, c ∈ get_outgoing_channels g u /\ destination c = v
            /\ payment_amount <= liquidity c.

(** [edge g amount u v]: the topology has a channel from [u] to [v] of
    capacity at least [amount]. *)
Definition edge (g : MockNetworkGraph) (payment_amount : Q) (u v : node) : Prop :=
  exists c, c ∈ get_outgoing_channels g u /\ source c = u /\ destination c = v
            /\ payment_amount <= liquidity c.

(** Every element of [l] and its successor are related by [R]. *)
Definition consecutive {A} (R : A -> A -> Prop) (l : list A) : Prop :=
  forall i u v, l !! i = Some u -> l !! S i = Some v -> R u v.

(** A path from [start_node] to [end_node] without repeated nodes whose
    consecutive nodes are joined by [link]. *)
Definition simple_path (link : node -> node -> Prop) (start_node end_node : node)
    (path : list node) : Prop :=
  head path = Some start_node /\ last path = Some end_node /\ NoDup path /\
  consecutive link path.

(** The paths that [_construct_path] can report for a routing task. *)
Definition constructed (g : MockNetworkGraph) (start_node end_node : node)
    (payment_amount : Q) (p : list node) : Prop :=
  simple_path (hop g payment_amount) start_node end_node p /\
  (length p <= Nat.max 1 (length (get_all_nodes g)))%nat.

(** ** What a run may change *)

(** The fields that [__init__] sets and no method assigns again. *)
Definition same_config (s s' : LightningACO) : Prop :=
  graph s' = graph s /\ num_ants s' = num_ants s /\ iterations s' = iterations s /\
  alpha s' = alpha s /\ beta s' = beta s /\
  evaporation_rate s' = evaporation_rate s /\ Qconst s' = Qconst s.

(** [descends start end amount w w']: [w'] is a world that the ants of a
    routing task can make of [w]: the configuration and the generator's
    stream are those of [w], the best fee has not grown, and the best path
    is the old one or a path constructed for the task. *)
Definition descends (start_node end_node : node) (payment_amount : Q)
    (w w' : World) : Prop :=
  same_config (self w) (self w') /\ draws w' = draws w /\
  float_le (best_path_fee (self w')) (best_path_fee (self w)) /\
  (best_path (self w') = best_path (self w) \/
   exists p, best_path (self w') = Some p /\
             constructed (graph (self w)) start_node end_node payment_amount p).

(** The best fees that a call printed, one per completed iteration:
    [w] is the world at the call and [w'] the world it left. *)
Definition printed (w w' : World) : list float :=
  map line_best_fee (drop (length (stdout w)) (stdout w')).


(** The world after one turn of the outer loop in which no ant ran:
    the store has decayed and one line was printed. *)
Definition idle_turn (w : World) (iteration : Z) : World :=
  {| self := set_pheromones
               (evaporate (evaporation_rate (self w)) (pheromones (self w))) (self w);
     draws := draws w;
     cursor := cursor w;
     stdout := stdout w ++ [{| line_iteration := iteration + 1;
                               line_iterations := iterations (self w);
                               line_best_fee := best_path_fee (self w) |}] |}.

(** ** The iteration order of the node set *)

(** The solver over the same topology whose node set iterates as [ns]. *)
Definition set_graph_nodes (ns : list node) (s : LightningACO) : LightningACO :=
  {| graph := {| nodes := ns; channels := channels (graph s) |};
     num_ants := num_ants s; iterations := iterations s;
     alpha := alpha s; beta := beta s; evaporation_rate := evaporation_rate s;
     Qconst := Qconst s; pheromones := pheromones s;
     best_path := best_path s; best_path_fee := best_path_fee s |}.

Definition with_nodes (ns : list node) (w : World) : World :=
  set_self (set_graph_nodes ns (self w)) w.

(** [order_blind n m]: over topologies of [n] nodes, [m] does the same
    whatever the iteration order of the node set, and keeps the node
    count. *)
Definition order_blind {A} (n : nat) (m : M A) : Prop :=
  forall ns w,
    length ns = n -> length (nodes (graph (self w))) = n ->
    m (with_nodes ns w) = (fst (m w), with_nodes ns (snd (m w)))
    /\ length (nodes (graph (self (snd (m w))))) = n.

(** Two topologies with the same nodes and the same channels; the node
    sets may iterate in different orders. *)
Definition same_topology (g1 g2 : MockNetworkGraph) : Prop :=
  nodes g1 ≡ₚ nodes g2 /\ channels g1 = channels g2.

(** Two solver objects in the same state over the same topology. *)
Definition same_solver (s1 s2 : LightningACO) : Prop :=
  same_topology (graph s1) (graph s2) /\
  num_ants s1 = num_ants s2 /\ iterations s1 = iterations s2 /\
  alpha s1 = alpha s2 /\ beta s1 = beta s2 /\
  evaporation_rate s1 = evaporation_rate s2 /\ Qconst s1 = Qconst s2 /\
  pheromones s1 = pheromones s2 /\
  best_path s1 = best_path s2 /\ best_path_fee s1 = best_path_fee s2.

(** ** Concrete inputs *)

(** The network of the module's demonstration. *)
Definition network : MockNetworkGraph :=
  add_channel (add_channel (add_channel (add_channel (add_channel
    MockNetworkGraph_init
    "A" "B" 1000 1 (1 # 1000))
    "B" "D" 1000 1 (1 # 1000))
    "A" "C" 1000 5 (5 # 1000))
    "C" "D" 1000 5 (5 # 1000))
    "B" "C" 500 1 (1 # 1000).

(** A network with a single channel that charges nothing. *)
Definition free_network : MockNetworkGraph :=
  add_channel MockNetworkGraph_init "A" "B" 1000 0 0.

(** A network in which "C" cannot be reached from "A": the only channel
    out of "A" leads to "B", which has no channel. *)
Definition dead_end_network : MockNetworkGraph :=
  add_channel (add_channel MockNetworkGraph_init
    "A" "B" 1000 1 0)
    "C" "A" 1000 1 0.

(** The generator that always draws [q]. *)
Definition always (q : Q) (n : nat) : Q := q.

(** A generator whose first two draws are 0.9999 and whose later draws
    are 0. *)
Definition high_then_low (n : nat) : Q := if (n <? 2)%nat then 9999 # 10000 else 0.

(** A generator whose first two draws are 0 and whose later draws are
    0.9999. *)
Definition low_then_high (n : nat) : Q := if (n <? 2)%nat then 0 else 9999 # 10000.

(** A world around a solver, with a generator at the start of its stream
    and nothing printed yet. *)
Definition world_of (s : LightningACO) (d : nat -> Q) : World :=
  {| self := s; draws := d; cursor := 0; stdout := [] |}.

(** ** Further vocabulary *)

(** The topologies that [MockNetworkGraph()] and [add_channel] build. *)
Inductive built : MockNetworkGraph -> Prop :=
| built_init : built MockNetworkGraph_init
| built_add g src dest liq bfee rate :
    built g -> built (add_channel g src dest liq bfee rate).

(** [channel_key g k]: [k] is the pair of the ends of a channel listed
    under a node of [g], a key that [_initialize_pheromones] writes. *)
Definition channel_key (g : MockNetworkGraph) (k : node * node) : Prop :=
  exists n c, n ∈ get_all_nodes g /\ c ∈ get_outgoing_channels g n
              /\ (source c, destination c) = k.

(** The store after the deposits of [amount] on the edges [es], in order. *)
Definition deposit_all (amount : Q) (es : list (node * node))
    (ph : gmap (node * node) Q) : gmap (node * node) Q :=
  foldl (fun ph e => deposit e amount ph) ph es.

(** The world after one draw from the generator. *)
Definition after_draw (w : World) : World :=
  {| self := self w; draws := draws w; cursor := S (cursor w); stdout := stdout w |}.

(** The world after [n] draws from the generator. *)
Definition after_draws (n : nat) (w : World) : World :=
  {| self := self w; draws := draws w; cursor := n + cursor w; stdout := stdout w |}.

(** [route g amount visited current cs]: an ant at [current] that has
    visited [visited] can take the channels [cs] one after the other;
    each is an outgoing channel of the node reached so far, leads to a
    node not visited before and can carry [amount]. *)
Fixpoint route (g : MockNetworkGraph) (payment_amount : Q) (visited : list node)
    (current : node) (cs : list MockChannel) : Prop :=
  match cs with
  | [] => True
  | c :: cs' =>
      c ∈ get_outgoing_channels g current
      /\ feasible visited payment_amount c
      /\ route g payment_amount (visited ++ [destination c]) (destination c) cs'
  end.

(** The running total after the fees of the channels [cs], in order. *)
Definition route_fee (payment_amount : Q) (total_fee : Q) (cs : list MockChannel) : Q :=
  foldl (fun total c => total + calculate_fee c payment_amount) total_fee cs.

(** [priced g start end amount path fee]: [path] leads from [start] to
    [end] along a route of feasible channels and [fee] is the sum of the
    fees of these channels. *)
Definition priced (g : MockNetworkGraph) (start_node end_node : node)
    (payment_amount : Q) (path : list node) (fee : float) : Prop :=
  exists cs,
    route g payment_amount [start_node] start_node cs
    /\ path = start_node :: map destination cs
    /\ last path = Some end_node
    /\ fee = Fin (route_fee payment_amount 0 cs).

(** The two ways in which a routing task changes the solver object: a
    write to the pheromone store, and the replacement of the best
    solution by a priced path of strictly smaller fee. *)
Inductive solver_step (start_node end_node : node) (payment_amount : Q)
    : LightningACO -> LightningACO -> Prop :=
| step_store s ph :
    solver_step start_node end_node payment_amount s (set_pheromones ph s)
| step_best s path fee :
    priced (graph s) start_node end_node payment_amount path fee ->
    float_ltb fee (best_path_fee s) = true ->
    solver_step start_node end_node payment_amount s (set_best (Some path) fee s).

(** The world after one turn of the outer loop in which every ant
    failed, with the generator at position [c]. *)
Definition failed_turn (c : nat) (w : World) (iteration : Z) : World :=
  {| self := set_pheromones
               (evaporate (evaporation_rate (self w)) (pheromones (self w))) (self w);
     draws := draws w;
     cursor := c;
     stdout := stdout w ++ [{| line_iteration := iteration + 1;
                               line_iterations := iterations (self w);
                               line_best_fee := best_path_fee (self w) |}] |}.



(** ** Levels in double precision *)

(** A Python [float] is an IEEE 754 binary64 number: 53 bits of
    precision, exponents below 1024, rounding to nearest even.  Its
    addition, subtraction and multiplication raise nothing: they
    overflow to an infinity and give NaN where the result is
    undefined. *)
Definition float64 : Type := spec_float.

Definition f64_add : float64 -> float64 -> float64 := SFadd 53 1024.
Definition f64_sub : float64 -> float64 -> float64 := SFsub 53 1024.
Definition f64_mul : float64 -> float64 -> float64 := SFmul 53 1024.

(** [x <= y] and [x < y]: false when either side is NaN. *)
Definition f64_leb : float64 -> float64 -> bool := SFleb.
Definition f64_ltb : float64 -> float64 -> bool := SFltb.

(** The mantissa and the exponent are those of a binary64 number. *)
Definition f64_valid : float64 -> bool := valid_binary 53 1024.

(** [0.0] and [1.0] *)
Definition f64_zero : float64 := S754_zero false.
Definition f64_one : float64 := S754_finite false 4503599627370496 (-52).

(** Neither an infinity nor NaN. *)
Definition f64_finite (x : float64) : bool :=
  match x with
  | S754_zero _ | S754_finite _ _ _ => true
  | S754_infinity _ | S754_nan => false
  end.

(** ** The pheromone store in double precision *)

(** [self.pheromones[(node, channel.destination)] = 1.0] *)
Definition init_channel64 (ph : gmap (node * node) float64) (channel : MockChannel)
    : gmap (node * node) float64 :=
  <[(source channel, destination channel) := f64_one]> ph.

Definition init_node64 (g : MockNetworkGraph) (ph : gmap (node * node) float64)
    (n : node) : gmap (node * node) float64 :=
  foldl init_channel64 ph (get_outgoing_channels g n).

(** [self.pheromones[edge] *= (1 - self.evaporation_rate)] on every
    edge. *)
Definition evaporate64 (rate : float64) (ph : gmap (node * node) float64)
    : gmap (node * node) float64 :=
  (fun level => f64_mul level (f64_sub f64_one rate)) <$> ph.

(** [self.pheromones[edge] = self.pheromones.get(edge, 0) + pheromone_deposit] *)
Definition deposit64 (edge : node * node) (amount : float64)
    (ph : gmap (node * node) float64) : gmap (node * node) float64 :=
  let current_pheromone := default f64_zero (ph !! edge) in
  <[edge := f64_add current_pheromone amount]> ph.

(** No stored level is an infinity or NaN. *)
Definition finite_store64 (ph : gmap (node * node) float64) : Prop :=
  forall edge level, ph !! edge = Some level -> f64_finite level = true.

(** The stores that decays at a rate in [0,1] and deposits of amounts
    that are not negative can produce from the initial store of a
    topology; [allowed rate ph] restricts the decays further. *)
Inductive reachable_store64 (allowed : float64 -> gmap (node * node) float64 -> Prop)
    (g : MockNetworkGraph) : gmap (node * node) float64 -> Prop :=
| reach64_init :
    reachable_store64 allowed g (foldl (init_node64 g) ∅ (get_all_nodes g))
| reach64_decay rate ph :
    f64_valid rate = true ->
    f64_leb f64_zero rate = true -> f64_leb rate f64_one = true ->
    allowed rate ph ->
    reachable_store64 allowed g ph ->
    reachable_store64 allowed g (evaporate64 rate ph)
| reach64_deposit edge amount ph :
    f64_leb f64_zero amount = true ->
    reachable_store64 allowed g ph ->
    reachable_store64 allowed g (deposit64 edge amount ph).

(** Every decay at a rate in [0,1] is allowed. *)
Definition any_decay (rate : float64) (ph : gmap (node * node) float64) : Prop :=
  True.

(** The decays that do not multiply an infinite level by zero: the rate
    is below 1.0, or every level is finite. *)
Definition no_infinite_level_at_rate_one (rate : float64)
    (ph : gmap (node * node) float64) : Prop :=
  f64_ltb rate f64_one = true \/ finite_store64 ph.

(** [1e308], [0.5] and [5.0] *)
Definition f64_1e308 : float64 := S754_finite false 5010420900022432 971.
Definition f64_half : float64 := S754_finite false 4503599627370496 (-53).
Definition f64_five : float64 := S754_finite false 5629499534213120 (-50).
(** * Properties *)

(** ** The order on fees *)

Lemma float_le_refl (a : float) : float_le a a.
Proof. destruct a; simpl; [apply Qle_refl | exact I]. Qed.

Lemma float_le_trans (a b c : float) : float_le a b -> float_le b c -> float_le a c.
Proof.
  destruct a, b, c; simpl; try tauto.
  apply Qle_trans.
Qed.

Lemma float_ltb_le (a b : float) : float_ltb a b = true -> float_le a b.
Proof.
  destruct a as [x|], b as [y|]; simpl; try done.
  intros H. apply negb_true_iff in H.
  destruct (Qlt_le_dec x y) as [Hlt|Hle]; [by apply Qlt_le_weak|].
  apply Qle_bool_iff in Hle. congruence.
Qed.

(** ** The pheromone store *)

(** Every edge of the topology has level 1 in the initial store. *)
Lemma init_channels_keep cs ph edge :
  ph !! edge = Some 1 -> foldl init_channel ph cs !! edge = Some 1.
Proof.
  revert ph. induction cs as [|c cs IH]; intros ph H; simpl; [done|].
  apply IH. unfold init_channel. rewrite lookup_insert. by case_decide.
Qed.

Lemma init_channels_set cs ph c :
  c ∈ cs -> foldl init_channel ph cs !! (source c, destination c) = Some 1.
Proof.
  revert ph. induction cs as [|c' cs IH]; intros ph H; simpl.
  - by apply elem_of_nil in H.
  - apply elem_of_cons in H as [->|H]; [|by apply IH].
    apply init_channels_keep. unfold init_channel. by rewrite lookup_insert_eq.
Qed.

Lemma initial_store_keeps g ns ph edge :
  ph !! edge = Some 1 -> foldl (init_node g) ph ns !! edge = Some 1.
Proof.
  revert ph. induction ns as [|n ns IH]; intros ph H; simpl; [done|].
  apply IH. by apply init_channels_keep.
Qed.

Lemma initial_store_edge g ph ns n c :
  n ∈ ns -> c ∈ get_outgoing_channels g n ->
  foldl (init_node g) ph ns !! (source c, destination c) = Some 1.
Proof.
  revert ph. induction ns as [|n' ns IH]; intros ph Hn Hc; simpl.
  - by apply elem_of_nil in Hn.
  - apply elem_of_cons in Hn as [<-|Hn]; [|by apply IH].
    apply initial_store_keeps. by apply init_channels_set.
Qed.


(** [edges_of path] lists [(path[i], path[i+1])] for [i] in
    [range(len(path) - 1)], in that order. *)
Lemma length_edges_of (path : list node) :
  length (edges_of path) = (length path - 1)%nat.
Proof. unfold edges_of. rewrite length_zip, length_drop. lia. Qed.

Lemma edges_of_lookup (path : list node) (i : nat) :
  (i < length path - 1)%nat ->
  exists u v, path !! i = Some u /\ path !! S i = Some v
              /\ edges_of path !! i = Some (u, v).
Proof.
  intros Hi.
  destruct (lookup_lt_is_Some_2 path i) as [u Hu]; [lia|].
  destruct (lookup_lt_is_Some_2 path (S i)) as [v Hv]; [lia|].
  exists u, v. split; [done|]. split; [done|].
  unfold edges_of. apply lookup_zip_with_Some. exists u, v.
  split; [done|]. split; [done|]. by rewrite lookup_drop.
Qed.

(** ** Reasoning about methods *)

(** Splits off the conjuncts that hold trivially. *)
Ltac frame := repeat (split; [done|]).

Lemma bind_ok {A B} (m : M A) (k : A -> M B) w a w' :
  m w = (Ok a, w') -> bind m k w = k a w'.
Proof. unfold bind. by intros ->. Qed.

Lemma bind_raise {A B} (m : M A) (k : A -> M B) w e :
  fst (m w) = Raise e -> fst (bind m k w) = Raise e.
Proof. unfold bind. destruct (m w) as [[a|e'] w']; simpl; by intros [= ->]. Qed.

Lemma wp_bind {A B} (m : M A) (k : A -> M B) post w :
  wp m (fun r w' =>
          match r with
          | Ok a => wp (k a) post w'
          | Raise e => post (Raise e) w'
          end) w ->
  wp (bind m k) post w.
Proof.
  unfold wp, bind. destruct (m w) as [[a|e] w']; simpl; done.
Qed.

Lemma wp_mono {A} (m : M A) (post post' : result A -> World -> Prop) w :
  wp m post w -> (forall r w', post r w' -> post' r w') -> wp m post' w.
Proof. unfold wp. auto. Qed.

Lemma wp_ret {A} (a : A) (post : result A -> World -> Prop) w :
  post (Ok a) w -> wp (ret a) post w.
Proof. done. Qed.

Lemma wp_raise {A} e (post : result A -> World -> Prop) w :
  post (Raise e) w -> wp (raise e) post w.
Proof. done. Qed.

Lemma wp_lift {A} (r : result A) (post : result A -> World -> Prop) w :
  post r w -> wp (lift r) post w.
Proof. done. Qed.

Lemma wp_get_self (post : result LightningACO -> World -> Prop) w :
  post (Ok (self w)) w -> wp get_self post w.
Proof. done. Qed.

Lemma wp_modify_self f (post : result unit -> World -> Prop) w :
  post (Ok tt) (set_self (f (self w)) w) -> wp (modify_self f) post w.
Proof. done. Qed.

(** A loop keeps an invariant when its body does; an exception raised by
    the body ends the loop. *)
Lemma wp_for_each {A} (I : World -> Prop) (xs : list A) (body : A -> M unit)
    (post : result unit -> World -> Prop) w :
  I w ->
  (forall x w1, x ∈ xs -> I w1 ->
     wp (body x) (fun r w2 =>
       match r with
       | Ok _ => I w2
       | Raise e => post (Raise e) w2
       end) w1) ->
  (forall w1, I w1 -> post (Ok tt) w1) ->
  wp (for_each xs body) post w.
Proof.
  intros HI Hbody Hpost. revert w HI.
  induction xs as [|x xs IH]; intros w HI; simpl.
  - apply wp_ret. by apply Hpost.
  - apply wp_bind. eapply wp_mono.
    + apply (Hbody x w); [by left | done].
    + intros [[]|e] w'; [|done]. intros HI'.
      apply IH; [|done].
      intros y w1 Hy. apply Hbody. by right.
Qed.

(** ** The arithmetic primitives raise nothing but [ZeroDivisionError] *)

Lemma pydiv_inv a b r :
  pydiv a b = r ->
  match r with
  | Ok q => ~ b == 0 /\ q = a / b
  | Raise e => e = ZeroDivisionError /\ b == 0
  end.
Proof.
  unfold pydiv. destruct (Qeq_bool b 0) eqn:E; intros <-.
  - split; [done|]. by apply Qeq_bool_iff.
  - split; [|done]. intros H. apply Qeq_bool_iff in H. congruence.
Qed.

Lemma pypow_inv x n r :
  pypow x n = r ->
  match r with
  | Ok q => q = x ^ n
  | Raise e => e = ZeroDivisionError
  end.
Proof.
  unfold pypow. destruct (Qeq_bool x 0 && (n <? 0)%Z); by intros <-.
Qed.

Lemma pydiv_float_inv a b r :
  pydiv_float a b = r ->
  match r with
  | Ok _ => True
  | Raise e => e = ZeroDivisionError
  end.
Proof.
  destruct b as [q|]; simpl; [|by intros <-].
  intros H. apply pydiv_inv in H. destruct r; tauto.
Qed.

(** ** [_select_next_channel] *)

Lemma weigh_channel_inv s cur vis amt acc c r :
  weigh_channel s cur vis amt acc c = r ->
  match r with
  | Ok acc' =>
      acc' = acc \/
      (feasible vis amt c /\
       exists prob, acc' = (fst acc ++ [(c, prob)], snd acc + prob))
  | Raise e => e = ZeroDivisionError
  end.
Proof.
  unfold weigh_channel.
  destruct (negb (bool_decide (destination c ∈ vis))
            && Qle_bool amt (liquidity c)) eqn:E; [|intros <-; by left].
  apply andb_true_iff in E as [E1 E2].
  apply negb_true_iff, bool_decide_eq_false in E1.
  apply Qle_bool_iff in E2.
  destruct (pydiv 1 (calculate_fee c amt + epsilon)) as [inv|e] eqn:E3; simpl.
  2: { intros <-. by apply pydiv_inv in E3 as [-> _]. }
  destruct (pypow inv (beta s)) as [h|e] eqn:E4; simpl.
  2: { intros <-. by apply pypow_inv in E4. }
  destruct (pypow _ (alpha s)) as [p|e] eqn:E5; simpl.
  2: { intros <-. by apply pypow_inv in E5. }
  intros <-. right. split; [done|]. by eexists.
Qed.

(** What the loop over the outgoing channels collects. *)
Lemma weigh_channels_inv s cur vis amt cs acc r :
  foldlR (weigh_channel s cur vis amt) acc cs = r ->
  match r with
  | Ok acc' =>
      (forall cp, cp ∈ fst acc' -> cp ∈ fst acc \/ (fst cp ∈ cs /\ feasible vis amt (fst cp)))
      /\ (fst acc' = [] -> acc' = acc)
  | Raise e => e = ZeroDivisionError
  end.
Proof.
  revert acc r. induction cs as [|c cs IH]; intros acc r; simpl.
  - intros <-. split; [by left | done].
  - destruct (weigh_channel s cur vis amt acc c) as [acc1|e] eqn:E1; simpl.
    2: { intros <-. by apply weigh_channel_inv in E1. }
    intros H. apply IH in H. destruct r as [acc'|e]; [|done].
    destruct H as [H1 H2].
    apply weigh_channel_inv in E1 as [->|[Hf [prob ->]]].
    + split; [|done]. intros cp Hcp.
      destruct (H1 cp Hcp) as [?|[? ?]]; [by left|right]. split; [by right|done].
    + split.
      * intros cp Hcp. destruct (H1 cp Hcp) as [Hin|[? ?]].
        -- simpl in Hin. apply elem_of_app in Hin as [?|Hin]; [by left|right].
           apply list_elem_of_singleton in Hin as ->. split; [by left|done].
        -- right. split; [by right|done].
      * intros Hnil. specialize (H2 Hnil). subst acc'. simpl in Hnil.
        by destruct (fst acc).
Qed.

Lemma normalise_inv total (ps : list (MockChannel * Q)) r :
  mapR (fun cp => p <~ pydiv (snd cp) total ;; Ok (fst cp, p)) ps = r ->
  match r with
  | Ok ps' => map fst ps' = map fst ps
  | Raise e => e = ZeroDivisionError
  end.
Proof.
  revert r. induction ps as [|[c p] ps IH]; intros r; simpl.
  - by intros <-.
  - destruct (pydiv p total) as [q|e] eqn:E; simpl.
    2: { intros <-. by apply pydiv_inv in E as [-> _]. }
    destruct (mapR _ ps) as [ps'|e] eqn:E'; simpl; intros <-.
    + simpl. f_equal. by apply (IH (Ok ps')).
    + by apply (IH (Raise e)).
Qed.

Lemma roulette_elem r cumulative ps c :
  roulette r cumulative ps = Some c -> c ∈ map fst ps.
Proof.
  revert cumulative. induction ps as [|[c' p] ps IH]; intros cumulative; simpl; [done|].
  destruct (Qle_bool r (cumulative + p)).
  - intros [= ->]. by left.
  - intros H. right. by eapply IH.
Qed.

Lemma last_elem {A} (l : list A) (x : A) : last l = Some x -> x ∈ l.
Proof.
  intros H. apply last_Some in H as [l' ->].
  apply elem_of_app. right. by left.
Qed.

Lemma select_spec cur vis amt w :
  wp (_select_next_channel cur vis amt) (fun r w' =>
    self w' = self w /\ stdout w' = stdout w /\ draws w' = draws w /\
    match r with
    | Ok (Some c) =>
        c ∈ get_outgoing_channels (graph (self w)) cur /\ feasible vis amt c
    | Ok None => True
    | Raise e => e = ZeroDivisionError
    end) w.
Proof.
  unfold wp, _select_next_channel, bind, get_self, lift. simpl.
  destruct (foldlR _ _ _) as [[probs total]|e] eqn:E; simpl.
  2: { by apply weigh_channels_inv in E. }
  apply weigh_channels_inv in E as [Hin Hnil]. simpl in *.
  destruct (Qeq_bool total 0) eqn:Et; simpl; [done|].
  destruct (mapR _ probs) as [probs'|e] eqn:En; simpl.
  2: { by apply normalise_inv in En. }
  apply normalise_inv in En.
  assert (Hsel : forall c, c ∈ map fst probs' ->
            c ∈ get_outgoing_channels (graph (self w)) cur /\ feasible vis amt c).
  { intros c. rewrite En. intros Hc.
    apply list_elem_of_fmap in Hc as [cp [-> Hcp]].
    destruct (Hin cp Hcp) as [Hc|Hc]; [by apply elem_of_nil in Hc | done]. }
  destruct (roulette _ 0 probs') as [c|] eqn:Er; simpl.
  { apply roulette_elem, Hsel in Er. by frame. }
  destruct (last probs') as [cp|] eqn:El; simpl.
  { frame. apply Hsel, list_elem_of_fmap.
    exists cp. split; [done | by apply last_elem]. }
  exfalso. apply last_None in El. subst probs'.
  destruct probs; [|done].
  specialize (Hnil eq_refl). injection Hnil as ->. by vm_compute in Et.
Qed.

(** ** [_construct_path] *)

Lemma consecutive_snoc {A} (R : A -> A -> Prop) (l : list A) (x : A) :
  consecutive R l -> (forall u, last l = Some u -> R u x) ->
  consecutive R (l ++ [x]).
Proof.
  intros Hl Hx i u v Hu Hv.
  assert (Hi : (S i < length (l ++ [x]))%nat) by by eapply lookup_lt_Some.
  rewrite length_app in Hi. simpl in Hi.
  destruct (decide (S i = length l)) as [Heq|Hne].
  - rewrite lookup_app_l in Hu by lia.
    rewrite lookup_app_r in Hv by lia.
    replace (S i - length l)%nat with 0%nat in Hv by lia.
    injection Hv as <-. apply Hx.
    rewrite last_lookup. by replace (Nat.pred (length l)) with i by lia.
  - rewrite lookup_app_l in Hu by lia.
    rewrite lookup_app_l in Hv by lia.
    by eapply Hl.
Qed.

Lemma simple_path_snoc link start_node current next path :
  simple_path link start_node current path ->
  next ∉ path -> link current next ->
  simple_path link start_node next (path ++ [next]).
Proof.
  intros (Hhd & Hlast & Hnd & Hlink) Hnew Hl. repeat split.
  - destruct path; [done|]. exact Hhd.
  - apply last_snoc.
  - apply NoDup_app. repeat split; [done | | apply NoDup_singleton].
    intros x Hx Hx'. apply list_elem_of_singleton in Hx' as ->. by apply Hnew.
  - apply consecutive_snoc; [done|].
    intros u Hu. by replace u with current by congruence.
Qed.

Lemma construct_loop_spec fuel end_node amt max_len :
  forall cur path fee w start_node,
    simple_path (hop (graph (self w)) amt) start_node cur path ->
    (length path <= Nat.max 1 max_len)%nat ->
    (max_len <= length path + fuel)%nat ->
    wp (construct_loop fuel end_node amt max_len cur path fee) (fun r w' =>
      self w' = self w /\ stdout w' = stdout w /\ draws w' = draws w /\
      match r with
      | Ok (Some p, f) =>
          simple_path (hop (graph (self w)) amt) start_node end_node p
          /\ (length p <= Nat.max 1 max_len)%nat /\ exists q, f = Fin q
      | Ok (None, f) => f = Inf
      | Raise e => e = ZeroDivisionError
      end) w.
Proof.
  induction fuel as [|fuel IH]; intros cur path fee w start_node Hp Hlen Hfuel.
  - simpl.
    destruct (negb (bool_decide (cur = end_node)) && (length path <? max_len)%nat) eqn:G.
    { apply andb_true_iff in G as [_ G]. apply Nat.ltb_lt in G. lia. }
    case_bool_decide as Hc; apply wp_ret; frame; [|done].
    subst cur. frame. by eexists.
  - simpl.
    destruct (negb (bool_decide (cur = end_node)) && (length path <? max_len)%nat) eqn:G.
    2: { case_bool_decide as Hc; apply wp_ret; frame; [|done].
         subst cur. frame. by eexists. }
    apply andb_true_iff in G as [_ G]. apply Nat.ltb_lt in G.
    apply wp_bind. eapply wp_mono; [apply select_spec|].
    intros [[c|]|e] w1 (Hs & Ho & Hd & Hr); simpl.
    + destruct Hr as [Hc [Hnew Hliq]].
      eapply wp_mono.
      * apply (IH _ _ _ w1 start_node).
        -- rewrite Hs. apply (simple_path_snoc _ _ cur); [done..|].
           by exists c.
        -- rewrite length_app. simpl. lia.
        -- rewrite length_app. simpl. lia.
      * intros r w2 (Hs2 & Ho2 & Hd2 & Hr2).
        rewrite Hs in Hs2, Hr2. rewrite Ho in Ho2. rewrite Hd in Hd2. by frame.
    + apply wp_ret. by frame.
    + by frame.
Qed.

Lemma construct_spec start_node end_node amt w :
  wp (_construct_path start_node end_node amt) (fun r w' =>
    self w' = self w /\ stdout w' = stdout w /\ draws w' = draws w /\
    match r with
    | Ok (Some p, f) =>
        simple_path (hop (graph (self w)) amt) start_node end_node p
        /\ (length p <= Nat.max 1 (length (get_all_nodes (graph (self w)))))%nat
        /\ exists q, f = Fin q
    | Ok (None, f) => f = Inf
    | Raise e => e = ZeroDivisionError
    end) w.
Proof.
  unfold _construct_path. apply wp_bind, wp_get_self.
  apply construct_loop_spec; simpl; [|lia..].
  repeat split; [apply NoDup_singleton|].
  intros [|i] u v; simpl; [done|]. by rewrite lookup_nil.
Qed.

(** ** [_update_pheromones], the ants and [solve] *)

Lemma same_config_refl s : same_config s s.
Proof. by repeat split. Qed.

Lemma descends_refl s e a w : descends s e a w w.
Proof.
  split; [apply same_config_refl|]. split; [done|].
  split; [apply float_le_refl | by left].
Qed.

Lemma descends_trans s e a w1 w2 w3 :
  descends s e a w1 w2 -> descends s e a w2 w3 -> descends s e a w1 w3.
Proof.
  intros (C1 & D1 & F1 & B1) (C2 & D2 & F2 & B2).
  assert (Hg : graph (self w2) = graph (self w1)) by apply C1.
  split.
  { destruct C1 as (?&?&?&?&?&?&?), C2 as (?&?&?&?&?&?&?).
    repeat split; congruence. }
  split; [congruence|].
  split; [by eapply float_le_trans|].
  destruct B2 as [B2|[p [B2 Hp]]].
  - rewrite B2. exact B1.
  - right. exists p. by rewrite <- Hg.
Qed.

(** A step that leaves the configuration, the best solution and the
    generator's stream alone. *)
Lemma descends_frame s e a w w' :
  same_config (self w) (self w') -> draws w' = draws w ->
  best_path (self w') = best_path (self w) ->
  best_path_fee (self w') = best_path_fee (self w) ->
  descends s e a w w'.
Proof.
  intros C D B F. split; [done|]. split; [done|].
  split; [rewrite F; apply float_le_refl | by left].
Qed.

Lemma deposit_path_spec s e a all w :
  wp (deposit_path all) (fun r w' =>
    descends s e a w w' /\ stdout w' = stdout w /\
    match r with
    | Ok _ => True
    | Raise e => e = ZeroDivisionError
    end) w.
Proof.
  unfold deposit_path. apply wp_bind, wp_get_self.
  apply wp_bind, wp_lift.
  destruct (pydiv_float _ _) as [d|err] eqn:E.
  2: { apply pydiv_float_inv in E. split; [apply descends_refl | done]. }
  apply (wp_for_each (fun w1 => descends s e a w w1 /\ stdout w1 = stdout w)).
  - split; [apply descends_refl | done].
  - intros edge w1 _ [H1 H2]. apply wp_modify_self. split; [|done].
    eapply descends_trans; [exact H1|].
    by apply descends_frame.
  - intros w1 [H1 H2]. by frame.
Qed.

Lemma update_spec s e a all_paths w :
  wp (_update_pheromones all_paths) (fun r w' =>
    descends s e a w w' /\ stdout w' = stdout w /\
    match r with
    | Ok _ => True
    | Raise e => e = ZeroDivisionError
    end) w.
Proof.
  unfold _update_pheromones. apply wp_bind, wp_modify_self.
  set (w1 := set_self _ w).
  assert (H1 : descends s e a w w1).
  { by apply descends_frame. }
  apply (wp_for_each (fun w2 => descends s e a w w2 /\ stdout w2 = stdout w)).
  - done.
  - intros all w2 _ [H2 H3]. eapply wp_mono; [apply (deposit_path_spec s e a)|].
    intros [[]|err] w3 (H4 & H5 & H6).
    + split; [by eapply descends_trans | congruence].
    + split; [by eapply descends_trans | split; [congruence | done]].
  - intros w2 [H2 H3]. by frame.
Qed.

Lemma ant_spec s e a all_paths w :
  wp (ant s e a all_paths) (fun r w' =>
    descends s e a w w' /\ stdout w' = stdout w /\
    match r with
    | Ok _ => True
    | Raise e => e = ZeroDivisionError
    end) w.
Proof.
  unfold ant. apply wp_bind. eapply wp_mono; [apply construct_spec|].
  intros [[path fee]|err] w1 (Hs & Ho & Hd & Hr); simpl.
  2: { split; [|done]. apply descends_frame; try congruence.
       rewrite Hs. apply same_config_refl. }
  assert (H1 : descends s e a w w1).
  { apply descends_frame; try congruence. rewrite Hs. apply same_config_refl. }
  destruct (truthy path) eqn:T; [|by apply wp_ret].
  apply wp_bind, wp_get_self. apply wp_bind.
  destruct (float_ltb fee (best_path_fee (self w1))) eqn:L.
  - apply wp_modify_self. apply wp_ret.
    split; [|done].
    destruct path as [p|]; [|done]. destruct Hr as (Hp & Hlen & _).
    rewrite Hs in L |- *.
    split; [by repeat split|]. split; [done|]. simpl.
    split; [by apply float_ltb_le|].
    right. by exists p.
  - by apply wp_ret, wp_ret.
Qed.

Lemma ants_spec n s e a : forall all_paths w,
  wp (ants n s e a all_paths) (fun r w' =>
    descends s e a w w' /\ stdout w' = stdout w /\
    match r with
    | Ok _ => True
    | Raise e => e = ZeroDivisionError
    end) w.
Proof.
  induction n as [|n IH]; intros all_paths w; simpl.
  - apply wp_ret. split; [apply descends_refl | done].
  - apply wp_bind. eapply wp_mono; [apply ant_spec|].
    intros [all'|err] w1 (H1 & H2 & H3); [|done].
    eapply wp_mono; [apply IH|].
    intros r w2 (H4 & H5 & H6).
    split; [by eapply descends_trans | split; [congruence | done]].
Qed.

(** One turn of the outer loop: on success it prints one line, the best
    fee at that point. *)
Lemma iteration_body_spec s e a iteration w :
  wp (iteration_body s e a iteration) (fun r w' =>
    descends s e a w w' /\
    match r with
    | Ok _ =>
        exists l, stdout w' = stdout w ++ [l]
                  /\ line_best_fee l = best_path_fee (self w')
    | Raise e => e = ZeroDivisionError /\ stdout w' = stdout w
    end) w.
Proof.
  unfold iteration_body. apply wp_bind, wp_get_self.
  apply wp_bind. eapply wp_mono; [apply ants_spec|].
  intros [all_paths|err] w1 (H1 & H2 & H3); [|done].
  apply wp_bind. eapply wp_mono; [apply (update_spec s e a)|].
  intros [[]|err] w2 (H4 & H5 & H6).
  2: { split; [by eapply descends_trans | split; [done | congruence]]. }
  apply wp_bind, wp_get_self. unfold wp, print. simpl.
  split.
  - eapply descends_trans; [exact H1|]. eapply descends_trans; [exact H4|].
    by apply descends_frame.
  - eexists. split; [by rewrite H5, H2 | done].
Qed.

Lemma initialize_spec s e a w :
  wp _initialize_pheromones (fun r w' =>
    descends s e a w w' /\ stdout w' = stdout w /\ r = Ok tt) w.
Proof.
  unfold _initialize_pheromones. apply wp_modify_self.
  split; [by apply descends_frame | done].
Qed.

(** What [solve] leaves behind, whether it returns or raises: the lines
    it printed carry best fees that do not grow, none above the best fee
    at the call, none below the best fee at the end. *)
Lemma solve_spec s e a w :
  wp (solve s e a) (fun r w' =>
    descends s e a w w' /\
    (exists ls,
        stdout w' = stdout w ++ ls
        /\ consecutive (flip float_le) (map line_best_fee ls)
        /\ Forall (fun l => float_le (line_best_fee l) (best_path_fee (self w))
                            /\ float_le (best_path_fee (self w')) (line_best_fee l)) ls) /\
    match r with
    | Ok pf => pf = (best_path (self w'), best_path_fee (self w'))
    | Raise e => e = ZeroDivisionError
    end) w.
Proof.
  unfold solve. apply wp_bind. eapply wp_mono; [apply (initialize_spec s e a)|].
  intros r w0 (D0 & O0 & ->).
  apply wp_bind, wp_get_self. apply wp_bind.
  set (I := fun w1 : World =>
    descends s e a w w1 /\
    exists ls,
      stdout w1 = stdout w ++ ls
      /\ consecutive (flip float_le) (map line_best_fee ls)
      /\ Forall (fun l => float_le (line_best_fee l) (best_path_fee (self w))
                          /\ float_le (best_path_fee (self w1)) (line_best_fee l)) ls).
  apply (wp_for_each I).
  - split; [done|]. exists []. rewrite app_nil_r. split; [done|].
    split; [|constructor]. intros i u v Hu. simpl in Hu. by rewrite lookup_nil in Hu.
  - intros it w1 _ (D1 & ls & O1 & C1 & F1).
    eapply wp_mono; [apply (iteration_body_spec s e a)|].
    intros [[]|err] w2 [D2 H2].
    + destruct H2 as (l & O2 & Hl).
      assert (Hle : float_le (best_path_fee (self w2)) (best_path_fee (self w1)))
        by apply D2.
      split; [by eapply descends_trans|].
      exists (ls ++ [l]). rewrite O2, O1, app_assoc. split; [done|].
      split.
      * rewrite map_app. apply consecutive_snoc; [done|].
        intros u Hu. simpl. unfold flip. rewrite Hl.
        apply last_elem, list_elem_of_fmap in Hu as (l' & -> & Hl').
        eapply float_le_trans; [exact Hle|].
        by eapply (proj1 (Forall_forall _ _) F1 l').
      * apply Forall_app. split.
        -- eapply Forall_impl; [exact F1|]. intros l' [Ha Hb].
           split; [done|]. by eapply float_le_trans.
        -- constructor; [|constructor]. rewrite Hl.
           split; [|apply float_le_refl].
           eapply float_le_trans; [exact Hle|]. apply D1.
    + destruct H2 as [-> O2].
      assert (Hle : float_le (best_path_fee (self w2)) (best_path_fee (self w1)))
        by apply D2.
      split; [by eapply descends_trans|]. split; [|done].
      exists ls. rewrite O2. split; [done|]. split; [done|].
      eapply Forall_impl; [exact F1|]. intros l' [Ha Hb].
      split; [done|]. by eapply float_le_trans.
  - intros w1 HI. apply wp_bind, wp_get_self. apply wp_ret.
    destruct HI as [D1 HI]. by frame.
Qed.

(** ** Runs without iterations or without ants *)

Lemma iteration_body_idle s e a iteration w :
  (num_ants (self w) <= 0)%Z ->
  iteration_body s e a iteration w = (Ok tt, idle_turn w iteration).
Proof.
  intros H. unfold iteration_body, bind, get_self. simpl.
  by rewrite Z2Nat.nonpos.
Qed.

Lemma idle_turns_config its : forall w,
  self (foldl idle_turn w its)
  = set_pheromones
      (Nat.iter (length its) (evaporate (evaporation_rate (self w))) (pheromones (self w)))
      (self w)
  /\ cursor (foldl idle_turn w its) = cursor w
  /\ draws (foldl idle_turn w its) = draws w
  /\ exists ls, stdout (foldl idle_turn w its) = stdout w ++ ls
                /\ length ls = length its.
Proof.
  induction its as [|it its IH]; intros w; simpl.
  - split; [by destruct w as [[] ? ? ?]|]. frame. exists []. by rewrite app_nil_r.
  - destruct (IH (idle_turn w it)) as (Hs & Hc & Hd & ls & Ho & Hl).
    split; [|frame].
    + rewrite Hs. simpl. unfold set_pheromones. simpl. f_equal.
      by rewrite <- Nat.iter_succ_r.
    + eexists (_ :: ls). split; [|by simpl; f_equal].
      rewrite Ho. simpl. by rewrite <- app_assoc.
Qed.

Lemma for_each_idle s e a its : forall w,
  (num_ants (self w) <= 0)%Z ->
  for_each its (iteration_body s e a) w = (Ok tt, foldl idle_turn w its).
Proof.
  induction its as [|it its IH]; intros w H; simpl; [done|].
  unfold bind. rewrite iteration_body_idle by done.
  by apply IH.
Qed.

(** [solve] when the loops have nothing to run. *)
Lemma solve_idle s e a w :
  (iterations (self w) <= 0)%Z \/ (num_ants (self w) <= 0)%Z ->
  solve s e a w
  = (Ok (best_path (self w), best_path_fee (self w)),
     foldl idle_turn (snd (_initialize_pheromones w)) (range (iterations (self w)))).
Proof.
  intros H. unfold solve, bind. simpl.
  destruct H as [H|H].
  - unfold range. rewrite Z2Nat.nonpos by done. simpl. reflexivity.
  - rewrite for_each_idle by done. unfold get_self. simpl.
    by destruct (idle_turns_config (range (iterations (self w)))
                   (set_self (set_pheromones
                      (foldl (init_node (graph (self w))) (pheromones (self w))
                         (get_all_nodes (graph (self w)))) (self w)) w))
      as (-> & _).
Qed.

Lemma length_range n : length (range n) = Z.to_nat n.
Proof. unfold range. by rewrite length_map, length_seq. Qed.

(** ** Well-formed topologies *)

Lemma wf_graph_init : wf_graph MockNetworkGraph_init.
Proof.
  intros u c. unfold get_outgoing_channels. simpl. rewrite lookup_empty. simpl.
  intros H. by apply elem_of_nil in H.
Qed.

Lemma wf_graph_add_channel g src dest liq bfee rate :
  wf_graph g -> wf_graph (add_channel g src dest liq bfee rate).
Proof.
  intros Hg u c. specialize (Hg u c). revert Hg.
  unfold get_outgoing_channels, add_channel. simpl.
  rewrite lookup_insert. case_decide as Hu.
  - subst u. simpl. destruct (channels g !! src) as [cs|] eqn:E; simpl.
    + rewrite E. simpl. intros Hg Hc. apply elem_of_app in Hc as [Hc|Hc]; [by apply Hg|].
      by apply list_elem_of_singleton in Hc as ->.
    + rewrite lookup_insert_eq. simpl. intros _ Hc.
      by apply list_elem_of_singleton in Hc as ->.
  - destruct (channels g !! src) as [cs|] eqn:E; [done|].
    by rewrite lookup_insert_ne.
Qed.

Lemma wf_graph_network : wf_graph network.
Proof. unfold network. repeat apply wf_graph_add_channel. apply wf_graph_init. Qed.

Lemma hop_edge g amount u v : wf_graph g -> hop g amount u v -> edge g amount u v.
Proof.
  intros Hg (c & Hc & Hd & Hl). exists c. split; [done|].
  split; [by apply (Hg u)|done].
Qed.

Lemma constructed_edges g s e a p :
  wf_graph g -> constructed g s e a p ->
  simple_path (edge g a) s e p
  /\ (length p <= Nat.max 1 (length (get_all_nodes g)))%nat.
Proof.
  intros Hg [(Hh & Hl & Hn & Hc) Hlen]. split; [|done].
  repeat split; try done.
  intros i u v Hu Hv. apply hop_edge; [done|]. by eapply Hc.
Qed.

(** ** Independence of the iteration order of the node set *)

Section order_blind.
Context (n : nat).

Lemma order_blind_ret {A} (a : A) : order_blind n (ret a).
Proof. by intros ns w Hn Hw. Qed.

Lemma order_blind_raise {A} e : order_blind n (@raise A e).
Proof. by intros ns w Hn Hw. Qed.

Lemma order_blind_lift {A} (r : result A) : order_blind n (lift r).
Proof. by intros ns w Hn Hw. Qed.

Lemma order_blind_uniform a b : order_blind n (uniform a b).
Proof. by intros ns w Hn Hw. Qed.

Lemma order_blind_print l : order_blind n (print l).
Proof. by intros ns w Hn Hw. Qed.

Lemma order_blind_modify_self f :
  (forall ns s, f (set_graph_nodes ns s) = set_graph_nodes ns (f s)) ->
  (forall s, graph (f s) = graph s) ->
  order_blind n (modify_self f).
Proof.
  intros Hf Hg ns w Hn Hw. unfold modify_self, with_nodes. simpl.
  by rewrite Hf, Hg.
Qed.

Lemma order_blind_bind {A B} (m : M A) (k : A -> M B) :
  order_blind n m -> (forall a, order_blind n (k a)) -> order_blind n (bind m k).
Proof.
  intros Hm Hk ns w Hn Hw. unfold bind.
  destruct (Hm ns w Hn Hw) as [-> Hw'].
  destruct (m w) as [[a|e] w']; simpl in *; [|done].
  by apply Hk.
Qed.

Lemma order_blind_get_self {A} (k : LightningACO -> M A) :
  (forall s, order_blind n (k s)) ->
  (forall ns s, length ns = n -> length (nodes (graph s)) = n ->
                k (set_graph_nodes ns s) = k s) ->
  order_blind n (bind get_self k).
Proof.
  intros Hk Heq ns w Hn Hw. unfold bind, get_self. simpl.
  rewrite Heq by done. by apply Hk.
Qed.

Lemma order_blind_for_each {A} (xs : list A) (body : A -> M unit) :
  (forall x, order_blind n (body x)) -> order_blind n (for_each xs body).
Proof.
  intros Hb. induction xs as [|x xs IH]; simpl.
  - apply order_blind_ret.
  - apply order_blind_bind; [apply Hb | done].
Qed.

Lemma order_blind_select cur vis amt :
  order_blind n (_select_next_channel cur vis amt).
Proof.
  unfold _select_next_channel. apply order_blind_get_self; [|done].
  intros s. apply order_blind_bind; [apply order_blind_lift|].
  intros acc. destruct (Qeq_bool (snd acc) 0); [apply order_blind_ret|].
  apply order_blind_bind; [apply order_blind_lift|]. intros probs.
  apply order_blind_bind; [apply order_blind_uniform|]. intros r.
  destruct (roulette r 0 probs); [apply order_blind_ret|].
  destruct (last probs); [apply order_blind_ret | apply order_blind_raise].
Qed.

Lemma order_blind_construct_loop fuel end_node amt max_len :
  forall cur path fee,
    order_blind n (construct_loop fuel end_node amt max_len cur path fee).
Proof.
  induction fuel as [|fuel IH]; intros cur path fee; simpl.
  - destruct (_ && _); [apply order_blind_raise|].
    case_bool_decide; apply order_blind_ret.
  - destruct (_ && _).
    + apply order_blind_bind; [apply order_blind_select|].
      intros [c|]; [apply IH | apply order_blind_ret].
    + case_bool_decide; apply order_blind_ret.
Qed.

Lemma order_blind_construct s e a : order_blind n (_construct_path s e a).
Proof.
  unfold _construct_path. apply order_blind_get_self.
  - intros s0. apply order_blind_construct_loop.
  - intros ns s0 Hn Hs. unfold get_all_nodes. simpl. by rewrite Hn, Hs.
Qed.

Lemma order_blind_ant s e a all : order_blind n (ant s e a all).
Proof.
  unfold ant. apply order_blind_bind; [apply order_blind_construct|].
  intros r. destruct (truthy (fst r)); [|apply order_blind_ret].
  apply order_blind_get_self; [|done].
  intros s0. apply order_blind_bind; [|intros; apply order_blind_ret].
  destruct (float_ltb _ _); [|apply order_blind_ret].
  by apply order_blind_modify_self.
Qed.

Lemma order_blind_ants k s e a : forall all, order_blind n (ants k s e a all).
Proof.
  induction k as [|k IH]; intros all; simpl; [apply order_blind_ret|].
  apply order_blind_bind; [apply order_blind_ant | done].
Qed.

Lemma order_blind_update all : order_blind n (_update_pheromones all).
Proof.
  unfold _update_pheromones.
  apply order_blind_bind; [by apply order_blind_modify_self|]. intros _.
  apply order_blind_for_each. intros pf. unfold deposit_path.
  apply order_blind_get_self; [|done]. intros s0.
  apply order_blind_bind; [apply order_blind_lift|]. intros d.
  apply order_blind_for_each. intros edge. by apply order_blind_modify_self.
Qed.

Lemma order_blind_iteration_body s e a it :
  order_blind n (iteration_body s e a it).
Proof.
  unfold iteration_body. apply order_blind_get_self; [|done]. intros s0.
  apply order_blind_bind; [apply order_blind_ants|]. intros all.
  apply order_blind_bind; [apply order_blind_update|]. intros _.
  apply order_blind_get_self; [|done]. intros s1. apply order_blind_print.
Qed.
End order_blind.

(** The initial store does not depend on the order in which the nodes
    are visited. *)
Lemma init_channel_comm ph c1 c2 :
  init_channel (init_channel ph c1) c2 = init_channel (init_channel ph c2) c1.
Proof.
  unfold init_channel.
  destruct (decide ((source c1, destination c1) = (source c2, destination c2))) as [->|H].
  - done.
  - by apply insert_insert_ne.
Qed.

Lemma init_channels_comm cs c : forall ph,
  foldl init_channel (init_channel ph c) cs = init_channel (foldl init_channel ph cs) c.
Proof.
  induction cs as [|c' cs IH]; intros ph; simpl; [done|].
  by rewrite <- IH, init_channel_comm.
Qed.

Lemma init_node_comm g ph n1 n2 :
  init_node g (init_node g ph n1) n2 = init_node g (init_node g ph n2) n1.
Proof.
  unfold init_node.
  generalize (get_outgoing_channels g n1) as cs1.
  generalize (get_outgoing_channels g n2) as cs2.
  intros cs2 cs1. revert ph.
  induction cs1 as [|c cs1 IH]; intros ph; simpl; [done|].
  by rewrite IH, init_channels_comm.
Qed.

Lemma initial_store_comm g ns n : forall ph,
  foldl (init_node g) (init_node g ph n) ns = init_node g (foldl (init_node g) ph ns) n.
Proof.
  induction ns as [|n' ns IH]; intros ph; simpl; [done|].
  by rewrite <- IH, init_node_comm.
Qed.

Lemma initial_store_permutation g ns1 ns2 :
  ns1 ≡ₚ ns2 -> forall ph, foldl (init_node g) ph ns1 = foldl (init_node g) ph ns2.
Proof.
  induction 1 as [|x l1 l2 _ IH|x y l|l1 l2 l3 _ IH1 _ IH2]; intros ph; simpl.
  - done.
  - apply IH.
  - by rewrite init_node_comm.
  - by rewrite IH1.
Qed.

Lemma solve_with_nodes s e a ns w :
  ns ≡ₚ nodes (graph (self w)) ->
  solve s e a (with_nodes ns w)
  = (fst (solve s e a w), with_nodes ns (snd (solve s e a w))).
Proof.
  intros Hp. unfold solve, bind at 1 3 5.
  assert (Hinit : _initialize_pheromones (with_nodes ns w)
                  = (Ok tt, with_nodes ns (snd (_initialize_pheromones w)))).
  { unfold _initialize_pheromones, modify_self, with_nodes, get_all_nodes. simpl.
    unfold set_self, set_graph_nodes, set_pheromones. simpl. do 3 f_equal.
    rewrite (initial_store_permutation _ _ _ Hp). reflexivity. }
  rewrite Hinit. simpl.
  set (w0 := set_self _ w).
  assert (Hob : order_blind (length ns)
    (s0 <- get_self ;;
     for_each (range (iterations s0)) (iteration_body s e a) ;;;
     s1 <- get_self ;; ret (best_path s1, best_path_fee s1))).
  { apply order_blind_get_self; [|done]. intros s0.
    apply order_blind_bind.
    - apply order_blind_for_each. intros it. apply order_blind_iteration_body.
    - intros _. apply order_blind_get_self; [|done]. intros s1. apply order_blind_ret. }
  apply (Hob ns w0); [done|]. subst w0. simpl. symmetry. by apply Permutation_length.
Qed.

(** ** The route from a node to itself *)

Lemma construct_path_trivial s a w :
  _construct_path s s a w = (Ok (Some [s], Fin 0), w).
Proof.
  unfold _construct_path, bind, get_self. simpl.
  destruct (length _) as [|k]; simpl; by rewrite bool_decide_eq_true_2.
Qed.

Lemma ant_trivial s a all w :
  exists w', ant s s a all w = (Ok (all ++ [([s], Fin 0)]), w').
Proof.
  unfold ant, bind. rewrite construct_path_trivial. simpl.
  destruct (best_path_fee (self w)) as [y|]; [destruct (negb (Qle_bool y 0))|];
    simpl; by eexists.
Qed.

Lemma ants_trivial n s a : forall all w,
  exists rest w', ants n s s a all w = (Ok (all ++ rest), w').
Proof.
  induction n as [|n IH]; intros all w; simpl.
  - exists [], w. by rewrite app_nil_r.
  - unfold bind. destruct (ant_trivial s a all w) as [w1 ->].
    destruct (IH (all ++ [([s], Fin 0)]) w1) as (rest & w' & ->).
    eexists _, w'. by rewrite <- app_assoc.
Qed.

(** A deposit for a path of fee 0 divides by zero. *)
Lemma update_zero_fee p rest w :
  fst (_update_pheromones ((p, Fin 0) :: rest) w) = Raise ZeroDivisionError.
Proof. reflexivity. Qed.

Lemma iteration_body_trivial s a it w :
  (0 < num_ants (self w))%Z ->
  fst (iteration_body s s a it w) = Raise ZeroDivisionError.
Proof.
  intros H. unfold iteration_body.
  rewrite (bind_ok get_self _ w (self w) w) by done.
  destruct (Z.to_nat (num_ants (self w))) as [|n] eqn:E; [lia|].
  destruct (ant_trivial s a [] w) as [w1 Hant].
  destruct (ants_trivial n s a ([] ++ [([s], Fin 0)]) w1) as (rest & w2 & Hants).
  erewrite bind_ok.
  2: { simpl. erewrite bind_ok by exact Hant. exact Hants. }
  apply bind_raise, update_zero_fee.
Qed.

(** ** Where the selector does find a channel *)

Lemma Qeq_bool_pos x : 0 < x -> Qeq_bool x 0 = false.
Proof.
  intros H. destruct (Qeq_bool x 0) eqn:E; [|done].
  apply Qeq_bool_iff in E. lra.
Qed.

Lemma pydiv_pos a b : 0 < a -> 0 < b -> exists q, pydiv a b = Ok q /\ 0 < q.
Proof.
  intros Ha Hb. unfold pydiv. rewrite Qeq_bool_pos by done.
  eexists. split; [done|].
  apply Qmult_lt_0_compat; [done | by apply Qinv_lt_0_compat].
Qed.

Lemma pypow_pos x n : 0 < x -> exists q, pypow x n = Ok q /\ 0 < q.
Proof.
  intros Hx. unfold pypow. rewrite Qeq_bool_pos by done. simpl.
  eexists. split; [done | by apply Qpower_0_lt].
Qed.

(** With positive levels and a fee that is not negative, a feasible
    channel gets a positive weight. *)
Lemma weigh_channel_pos s cur vis amt acc c :
  positive_store (pheromones s) ->
  0 <= calculate_fee c amt ->
  feasible vis amt c ->
  exists prob, 0 < prob
    /\ weigh_channel s cur vis amt acc c
       = Ok (fst acc ++ [(c, prob)], snd acc + prob).
Proof.
  intros Hph Hfee [Hnew Hliq]. unfold weigh_channel.
  rewrite bool_decide_eq_false_2 by done.
  apply Qle_bool_iff in Hliq. rewrite Hliq. simpl.
  destruct (pydiv_pos 1 (calculate_fee c amt + epsilon)) as (inv & -> & Hinv);
    [done | unfold epsilon; lra |]. simpl.
  destruct (pypow_pos inv (beta s) Hinv) as (h & -> & Hh). simpl.
  destruct (pypow_pos (default 1 (pheromones s !! (cur, destination c))) (alpha s))
    as (p & -> & Hp).
  { destruct (pheromones s !! _) as [x|] eqn:E; simpl; [by eapply Hph | done]. }
  simpl. eexists. split; [|done]. by apply Qmult_lt_0_compat.
Qed.

Lemma feasible_test vis amt c :
  negb (bool_decide (destination c ∈ vis)) && Qle_bool amt (liquidity c) = true
  <-> feasible vis amt c.
Proof.
  unfold feasible.
  rewrite andb_true_iff, negb_true_iff, bool_decide_eq_false, Qle_bool_iff. done.
Qed.

Lemma weigh_channel_total s cur vis amt acc c :
  positive_store (pheromones s) ->
  0 <= calculate_fee c amt ->
  exists acc',
    weigh_channel s cur vis amt acc c = Ok acc'
    /\ snd acc <= snd acc'
    /\ (feasible vis amt c -> snd acc < snd acc').
Proof.
  intros Hph Hfee.
  destruct (negb (bool_decide (destination c ∈ vis)) && Qle_bool amt (liquidity c))
    eqn:T.
  - apply feasible_test in T.
    destruct (weigh_channel_pos s cur vis amt acc c Hph Hfee T) as (prob & Hp & ->).
    eexists. split; [done|]. simpl. split; [lra|]. intros _. lra.
  - exists acc. unfold weigh_channel. rewrite T. split; [done|]. split; [lra|].
    intros Hf. apply feasible_test in Hf. congruence.
Qed.

Lemma weigh_channels_pos s cur vis amt cs : forall acc,
  positive_store (pheromones s) ->
  (forall c, c ∈ cs -> 0 <= calculate_fee c amt) ->
  exists acc',
    foldlR (weigh_channel s cur vis amt) acc cs = Ok acc'
    /\ snd acc <= snd acc'
    /\ ((exists c, c ∈ cs /\ feasible vis amt c) -> snd acc < snd acc').
Proof.
  induction cs as [|c cs IH]; intros acc Hph Hfee; simpl.
  - exists acc. split; [done|]. split; [lra|]. intros (c & Hc & _).
    by apply elem_of_nil in Hc.
  - destruct (weigh_channel_total s cur vis amt acc c Hph) as (acc1 & -> & Hle1 & Hlt1).
    { apply Hfee. by left. }
    simpl. destruct (IH acc1 Hph) as (acc' & -> & Hle & Hlt).
    { intros c' Hc'. apply Hfee. by right. }
    exists acc'. split; [done|]. split; [lra|].
    intros (c' & [->|Hc']%elem_of_cons & Hf).
    + specialize (Hlt1 Hf). lra.
    + assert (snd acc1 < snd acc') by (apply Hlt; by exists c'). lra.
Qed.

Lemma normalise_total total (ps : list (MockChannel * Q)) :
  ~ total == 0 ->
  exists ps',
    mapR (fun cp => p <~ pydiv (snd cp) total ;; Ok (fst cp, p)) ps = Ok ps'
    /\ length ps' = length ps.
Proof.
  intros Ht. induction ps as [|[c p] ps (ps' & IH & Hlen)]; simpl.
  - by exists [].
  - assert (E : pydiv p total = Ok (p / total)).
    { unfold pydiv. destruct (Qeq_bool total 0) eqn:E; [|done].
      by apply Qeq_bool_iff in E. }
    rewrite E. simpl. rewrite IH. simpl.
    eexists. split; [done|]. simpl. by rewrite Hlen.
Qed.

(** In exact arithmetic, with positive levels and fees that are not
    negative, the selector returns a channel whenever a feasible one
    exists. *)
Lemma select_finds_channel cur vis amt w :
  positive_store (pheromones (self w)) ->
  (forall c, c ∈ get_outgoing_channels (graph (self w)) cur ->
             0 <= calculate_fee c amt) ->
  (exists c, c ∈ get_outgoing_channels (graph (self w)) cur /\ feasible vis amt c) ->
  exists c, fst (_select_next_channel cur vis amt w) = Ok (Some c).
Proof.
  intros Hph Hfee Hfeas.
  unfold _select_next_channel, bind, get_self, lift. simpl.
  destruct (weigh_channels_pos (self w) cur vis amt
              (get_outgoing_channels (graph (self w)) cur) ([], 0) Hph Hfee)
    as ([probs total] & E & _ & Hpos).
  specialize (Hpos Hfeas). rewrite E. simpl in *.
  rewrite Qeq_bool_pos by done.
  destruct (normalise_total total probs) as (probs' & -> & Hlen); [lra|].
  simpl.
  destruct (roulette _ 0 probs') as [c|]; simpl; [by exists c|].
  destruct (last probs') as [cp|] eqn:El; simpl; [by exists (fst cp)|].
  exfalso. apply last_None in El. subst probs'.
  destruct probs as [|cp probs]; [|done].
  apply weigh_channels_inv in E as [_ Hnil].
  specialize (Hnil eq_refl). injection Hnil as ->. lra.
Qed.

(** With a level of 0 and a negative [alpha] the weight of a feasible
    channel cannot be computed at all. *)
Lemma zero_level_negative_alpha_raises :
  let w := world_of (LightningACO_init dead_end_network 1 1 (-1) 2 1 100) (always 0) in
  fst (_select_next_channel "A" ["A"] 100 (snd (solve "A" "C" 100 w)))
  = Raise ZeroDivisionError.
Proof. by vm_compute. Qed.

(** ** The mock topology *)

Lemma elem_of_set_add (x n : node) (s : list node) :
  n ∈ set_add x s <-> n = x \/ n ∈ s.
Proof.
  unfold set_add. case_bool_decide as Hx.
  - split; [by right|]. by intros [->|?].
  - rewrite elem_of_app, list_elem_of_singleton. tauto.
Qed.

Lemma NoDup_set_add (x : node) (s : list node) : NoDup s -> NoDup (set_add x s).
Proof.
  intros Hs. unfold set_add. case_bool_decide as Hx; [done|].
  apply NoDup_app. split; [done|]. split; [|apply NoDup_singleton].
  intros y Hy Hy'. by apply list_elem_of_singleton in Hy' as ->.
Qed.

Lemma built_network : built network.
Proof. unfold network. repeat apply built_add. apply built_init. Qed.

Lemma get_outgoing_add_channel g src dest liq bfee rate u :
  get_outgoing_channels (add_channel g src dest liq bfee rate) u
  = if decide (u = src)
    then get_outgoing_channels g src
           ++ [{| source := src; destination := dest; liquidity := liq;
                  base_fee := bfee; fee_rate := rate |}]
    else get_outgoing_channels g u.
Proof.
  unfold get_outgoing_channels, add_channel. simpl.
  rewrite lookup_insert. destruct (decide (u = src)) as [->|Hu].
  - rewrite decide_True by done. simpl.
    destruct (channels g !! src) as [cs|] eqn:E; simpl.
    + by rewrite E.
    + by rewrite lookup_insert_eq.
  - rewrite decide_False by done.
    destruct (channels g !! src) as [cs|] eqn:E; [done|].
    by rewrite lookup_insert_ne.
Qed.

Lemma nodes_add_channel g src dest liq bfee rate n :
  n ∈ get_all_nodes (add_channel g src dest liq bfee rate)
  <-> n ∈ get_all_nodes g \/ n = src \/ n = dest.
Proof.
  unfold get_all_nodes, add_channel. simpl.
  rewrite !elem_of_set_add. tauto.
Qed.

(** A property of every channel of a topology carries over to the
    topology with one more channel that has it. *)
Lemma forall_channels_init (P : MockChannel -> Prop) u c :
  c ∈ get_outgoing_channels MockNetworkGraph_init u -> P c.
Proof.
  unfold get_outgoing_channels. simpl. rewrite lookup_empty. simpl.
  intros H. by apply elem_of_nil in H.
Qed.

Lemma forall_channels_add (P : MockChannel -> Prop) g src dest liq bfee rate :
  (forall u c, c ∈ get_outgoing_channels g u -> P c) ->
  P {| source := src; destination := dest; liquidity := liq;
       base_fee := bfee; fee_rate := rate |} ->
  forall u c, c ∈ get_outgoing_channels (add_channel g src dest liq bfee rate) u -> P c.
Proof.
  intros Hg Hnew u c. rewrite get_outgoing_add_channel.
  destruct (decide (u = src)) as [->|Hu]; [|apply Hg].
  intros [Hc|Hc]%elem_of_app; [by eapply Hg|].
  by apply list_elem_of_singleton in Hc as ->.
Qed.

(** Proves a property of every channel of a topology written as a
    sequence of [add_channel]. *)
Ltac each_channel :=
  repeat (apply forall_channels_add; [|by vm_compute]);
  apply forall_channels_init.

(** ** Lookups in the pheromone store *)

Lemma init_channels_other cs : forall ph k,
  (forall c, c ∈ cs -> (source c, destination c) <> k) ->
  foldl init_channel ph cs !! k = ph !! k.
Proof.
  induction cs as [|c cs IH]; intros ph k H; simpl; [done|].
  rewrite IH by (intros c' Hc'; apply H; by right).
  unfold init_channel. apply lookup_insert_ne. apply H. by left.
Qed.

Lemma initial_store_other g ns : forall ph k,
  (forall n c, n ∈ ns -> c ∈ get_outgoing_channels g n ->
               (source c, destination c) <> k) ->
  foldl (init_node g) ph ns !! k = ph !! k.
Proof.
  induction ns as [|n ns IH]; intros ph k H; simpl; [done|].
  rewrite IH by (intros n' c Hn'; apply H; by right).
  apply init_channels_other. intros c. apply H. by left.
Qed.

Lemma deposit_all_notin amount es : forall ph k,
  k ∉ es -> deposit_all amount es ph !! k = ph !! k.
Proof.
  induction es as [|e es IH]; intros ph k Hk; simpl; [done|].
  apply not_elem_of_cons in Hk as [Hne Hk].
  unfold deposit_all in *. simpl. rewrite IH by done.
  unfold deposit. by apply lookup_insert_ne.
Qed.


(** The loop over the edges of a path is a fold of [deposit]. *)
Lemma for_each_deposit amount es : forall w,
  for_each es (fun edge =>
     modify_self (fun s => set_pheromones (deposit edge amount (pheromones s)) s)) w
  = (Ok tt,
     set_self (set_pheromones (deposit_all amount es (pheromones (self w))) (self w)) w).
Proof.
  induction es as [|e es IH]; intros w; simpl.
  - by destruct w as [[] ? ? ?].
  - unfold bind, modify_self at 1. rewrite IH. simpl. reflexivity.
Qed.



(** ** More on [_select_next_channel] *)

Lemma weigh_channel_infeasible s cur vis amt acc c :
  ~ feasible vis amt c -> weigh_channel s cur vis amt acc c = Ok acc.
Proof.
  intros H. unfold weigh_channel.
  destruct (negb (bool_decide (destination c ∈ vis)) && Qle_bool amt (liquidity c))
    eqn:T; [|done].
  by apply feasible_test in T.
Qed.

Lemma weigh_channels_infeasible s cur vis amt cs : forall acc,
  (forall c, c ∈ cs -> ~ feasible vis amt c) ->
  foldlR (weigh_channel s cur vis amt) acc cs = Ok acc.
Proof.
  induction cs as [|c cs IH]; intros acc H; simpl; [done|].
  rewrite weigh_channel_infeasible by (apply H; by left). simpl.
  apply IH. intros c' Hc'. apply H. by right.
Qed.

(** Every way a call of the selector can end. *)
Lemma select_outcome cur vis amt w :
  match _select_next_channel cur vis amt w with
  | (Ok (Some c), w') =>
      c ∈ get_outgoing_channels (graph (self w)) cur /\ feasible vis amt c
      /\ w' = after_draw w
  | (Ok None, w') => w' = w
  | (Raise e, w') => e = ZeroDivisionError /\ w' = w
  end.
Proof.
  destruct (_select_next_channel cur vis amt w) as [r w'] eqn:E.
  pose proof (select_spec cur vis amt w) as Hs. unfold wp in Hs.
  rewrite E in Hs. simpl in Hs. destruct Hs as (_ & _ & _ & Hr).
  revert E. unfold _select_next_channel, bind, get_self, lift. simpl.
  destruct (foldlR _ _ _) as [[probs total]|e]; simpl.
  2: { intros [= <- <-]. by split. }
  destruct (Qeq_bool total 0); simpl; [by intros [= <- <-]|].
  destruct (mapR _ probs) as [probs'|e]; simpl.
  2: { intros [= <- <-]. by split. }
  destruct (roulette _ 0 probs') as [c|]; simpl.
  { intros [= <- <-]. by destruct Hr. }
  destruct (last probs') as [cp|]; simpl.
  { intros [= <- <-]. by destruct Hr. }
  intros [= <- <-]. done.
Qed.

(** ** More on [_construct_path] *)

Lemma after_draws_0 w : after_draws 0 w = w.
Proof. by destruct w. Qed.

Lemma after_draws_S n w : after_draws n (after_draw w) = after_draws (S n) w.
Proof. unfold after_draws, after_draw. simpl. f_equal. lia. Qed.

Lemma construct_loop_route fuel end_node amt max_len :
  forall cur path fee w p f w',
    construct_loop fuel end_node amt max_len cur path fee w = (Ok (Some p, f), w') ->
    exists cs,
      route (graph (self w)) amt path cur cs
      /\ p = path ++ map destination cs
      /\ f = Fin (route_fee amt fee cs)
      /\ w' = after_draws (length cs) w.
Proof.
  induction fuel as [|fuel IH]; intros cur path fee w p f w'; simpl.
  - destruct (negb (bool_decide (cur = end_node)) && (length path <? max_len)%nat);
      [done|].
    case_bool_decide; [|done]. intros [= <- <- <-].
    exists []. simpl. by rewrite app_nil_r, after_draws_0.
  - destruct (negb (bool_decide (cur = end_node)) && (length path <? max_len)%nat).
    2: { case_bool_decide; [|done]. intros [= <- <- <-].
         exists []. simpl. by rewrite app_nil_r, after_draws_0. }
    unfold bind at 1.
    pose proof (select_outcome cur path amt w) as Hsel.
    destruct (_select_next_channel cur path amt w) as [[[c|]|e] w1]; [|done..].
    destruct Hsel as (Hc & Hf & ->). intros H.
    apply IH in H as (cs & Hroute & -> & -> & ->).
    exists (c :: cs). simpl. split; [done|].
    split; [by rewrite <- app_assoc|]. split; [done|]. apply after_draws_S.
Qed.

(** An ant that fails leaves the solver and the output alone. *)
Lemma construct_outcome s e a w :
  match _construct_path s e a w with
  | (Ok (Some p, f), w') =>
      exists cs,
        route (graph (self w)) a [s] s cs
        /\ p = s :: map destination cs
        /\ last p = Some e
        /\ f = Fin (route_fee a 0 cs)
        /\ w' = after_draws (length cs) w
  | (Ok (None, f), w') =>
      f = Inf /\ self w' = self w /\ stdout w' = stdout w /\ draws w' = draws w
  | (Raise err, w') =>
      err = ZeroDivisionError
      /\ self w' = self w /\ stdout w' = stdout w /\ draws w' = draws w
  end.
Proof.
  pose proof (construct_spec s e a w) as Hs. unfold wp in Hs.
  destruct (_construct_path s e a w) as [[[[p|] f]|err] w'] eqn:E; simpl in Hs.
  - destruct Hs as (_ & _ & _ & (_ & Hlast & _) & _).
    unfold _construct_path, bind, get_self in E. simpl in E.
    apply construct_loop_route in E as (cs & Hroute & -> & -> & ->).
    by exists cs.
  - tauto.
  - tauto.
Qed.

(** ** The solver object along a call *)

Section steps.
Context (s e : node) (a : Q).

Lemma set_pheromones_self st : set_pheromones (pheromones st) st = st.
Proof. by destruct st. Qed.

Lemma steps_store w ph :
  rtc (solver_step s e a) (self w) (set_pheromones ph (self w)).
Proof. apply rtc_once, step_store. Qed.

Lemma construct_steps w :
  wp (_construct_path s e a) (fun r w' =>
    self w' = self w /\
    match r with
    | Ok (Some p, f) => priced (graph (self w)) s e a p f
    | Ok (None, f) => f = Inf
    | Raise err => err = ZeroDivisionError
    end) w.
Proof.
  unfold wp. pose proof (construct_outcome s e a w) as H.
  destruct (_construct_path s e a w) as [[[[p|] f]|err] w']; simpl.
  - destruct H as (cs & Hr & -> & Hl & -> & ->). split; [done|]. by exists cs.
  - tauto.
  - tauto.
Qed.

Lemma ant_steps all w :
  wp (ant s e a all) (fun _ w' => rtc (solver_step s e a) (self w) (self w')) w.
Proof.
  unfold ant. apply wp_bind. eapply wp_mono; [apply construct_steps|].
  intros [[path fee]|err] w1 [Hs Hr]; simpl; [|by rewrite Hs].
  destruct (truthy path) eqn:T; [|apply wp_ret; by rewrite Hs].
  destruct path as [p|]; [|done].
  apply wp_bind, wp_get_self. apply wp_bind.
  destruct (float_ltb fee (best_path_fee (self w1))) eqn:L.
  - apply wp_modify_self, wp_ret. simpl. rewrite Hs in L |- *.
    by apply rtc_once, step_best.
  - apply wp_ret, wp_ret. by rewrite Hs.
Qed.

Lemma ants_steps n : forall all w,
  wp (ants n s e a all) (fun _ w' => rtc (solver_step s e a) (self w) (self w')) w.
Proof.
  induction n as [|n IH]; intros all w; simpl; [by apply wp_ret|].
  apply wp_bind. eapply wp_mono; [apply ant_steps|].
  intros [all'|err] w1 H1; [|done].
  eapply wp_mono; [apply IH|]. intros r w2 H2. by etrans.
Qed.

Lemma update_steps all w :
  wp (_update_pheromones all) (fun _ w' =>
    rtc (solver_step s e a) (self w) (self w')) w.
Proof.
  unfold _update_pheromones. apply wp_bind, wp_modify_self.
  apply (wp_for_each (fun w' => rtc (solver_step s e a) (self w) (self w'))).
  - apply steps_store.
  - intros pf w1 _ H1. unfold deposit_path.
    apply wp_bind, wp_get_self. apply wp_bind, wp_lift.
    destruct (pydiv_float _ _) as [d|err]; [|done].
    unfold wp. rewrite for_each_deposit. simpl.
    etrans; [exact H1|]. apply steps_store.
  - done.
Qed.

Lemma iteration_body_steps it w :
  wp (iteration_body s e a it) (fun _ w' =>
    rtc (solver_step s e a) (self w) (self w')) w.
Proof.
  unfold iteration_body. apply wp_bind, wp_get_self.
  apply wp_bind. eapply wp_mono; [apply ants_steps|].
  intros [all|err] w1 H1; [|done].
  apply wp_bind. eapply wp_mono; [apply update_steps|].
  intros [[]|err] w2 H2; [|by etrans].
  apply wp_bind, wp_get_self. unfold wp, print. simpl. by etrans.
Qed.

Lemma solve_steps w :
  wp (solve s e a) (fun r w' =>
    rtc (solver_step s e a) (self w) (self w') /\
    match r with
    | Ok pf => pf = (best_path (self w'), best_path_fee (self w'))
    | Raise err => True
    end) w.
Proof.
  unfold solve. apply wp_bind. unfold _initialize_pheromones. apply wp_modify_self.
  apply wp_bind, wp_get_self. apply wp_bind.
  apply (wp_for_each (fun w' => rtc (solver_step s e a) (self w) (self w'))).
  - apply steps_store.
  - intros it w1 _ H1. eapply wp_mono; [apply iteration_body_steps|].
    intros r w2 H2. destruct r as [[]|err]; [by etrans|].
    split; [by etrans | done].
  - intros w1 H1. apply wp_bind, wp_get_self. by apply wp_ret.
Qed.
End steps.

(** What every step keeps: the configuration; and the best solution is
    the one at the start or a priced path. *)
Lemma steps_invariant s e a st st' :
  rtc (solver_step s e a) st st' ->
  same_config st st'
  /\ float_le (best_path_fee st') (best_path_fee st)
  /\ ((best_path st' = best_path st /\ best_path_fee st' = best_path_fee st)
      \/ exists p, best_path st' = Some p
                   /\ priced (graph st) s e a p (best_path_fee st')).
Proof.
  induction 1 as [st|st1 st2 st3 Hstep _ (Hc & Hf & Hb)].
  - split; [apply same_config_refl|]. split; [apply float_le_refl | by left].
  - assert (Hc12 : same_config st1 st2) by (destruct Hstep; by repeat split).
    assert (Hg : graph st2 = graph st1) by apply Hc12.
    split.
    { destruct Hc12 as (?&?&?&?&?&?&?), Hc as (?&?&?&?&?&?&?).
      repeat split; congruence. }
    split.
    { eapply float_le_trans; [exact Hf|].
      destruct Hstep as [|st p f _ Hlt]; simpl;
        [apply float_le_refl | by apply float_ltb_le]. }
    destruct Hb as [[Hb1 Hb2]|(p & Hp & Hpr)].
    + destruct Hstep as [st ph|st p f Hpr Hlt]; simpl in *.
      * by left.
      * right. exists p. rewrite Hb1, Hb2. by split.
    + right. exists p. split; [done|]. by rewrite <- Hg.
Qed.

(** ** The lines that [solve] prints *)

Lemma iteration_body_line s e a it w :
  wp (iteration_body s e a it) (fun r w' =>
    iterations (self w') = iterations (self w) /\
    match r with
    | Ok _ =>
        stdout w' = stdout w ++ [{| line_iteration := it + 1;
                                    line_iterations := iterations (self w);
                                    line_best_fee := best_path_fee (self w') |}]
    | Raise _ => stdout w' = stdout w
    end) w.
Proof.
  unfold iteration_body. apply wp_bind, wp_get_self.
  apply wp_bind. eapply wp_mono; [apply ants_spec|].
  intros [all|err] w1 (D1 & O1 & _).
  2: { split; [apply D1 | done]. }
  apply wp_bind. eapply wp_mono; [apply (update_spec s e a)|].
  intros [[]|err] w2 (D2 & O2 & _).
  2: { split; [|congruence].
       transitivity (iterations (self w1)); [apply D2 | apply D1]. }
  assert (Hit : iterations (self w2) = iterations (self w)).
  { transitivity (iterations (self w1)); [apply D2 | apply D1]. }
  apply wp_bind, wp_get_self. unfold wp, print. simpl.
  split; [done|]. by rewrite O2, O1, Hit.
Qed.

Lemma for_each_lines s e a its : forall w w',
  for_each its (iteration_body s e a) w = (Ok tt, w') ->
  iterations (self w') = iterations (self w)
  /\ exists ls,
       stdout w' = stdout w ++ ls
       /\ map line_iteration ls = map (fun it => it + 1)%Z its
       /\ Forall (fun l => line_iterations l = iterations (self w)) ls
       /\ (forall l, last ls = Some l -> line_best_fee l = best_path_fee (self w')).
Proof.
  induction its as [|it its IH]; intros w w'; simpl.
  - intros [= <-]. split; [done|]. exists []. by rewrite app_nil_r.
  - unfold bind at 1.
    pose proof (iteration_body_line s e a it w) as Hb. unfold wp in Hb.
    destruct (iteration_body s e a it w) as [[[]|err] w1]; [|done].
    simpl in Hb. destruct Hb as [Hit Hout]. intros Hrest.
    pose proof Hrest as Hrest'.
    apply IH in Hrest as (Hit' & ls & Ho & Hn & Hf & Hlast).
    split; [congruence|]. eexists (_ :: ls). split; [|split; [|split]].
    + rewrite Ho, Hout. by rewrite <- app_assoc.
    + simpl. by rewrite Hn.
    + constructor; [done|]. by rewrite <- Hit.
    + intros l. destruct ls as [|l' ls'].
      * destruct its; [|done]. simpl in Hrest'. injection Hrest' as <-.
        simpl. by intros [= <-].
      * intros Hl. by apply Hlast.
Qed.

(** [solve] in terms of its outer loop. *)
Lemma solve_run s e a w :
  match for_each (range (iterations (self w))) (iteration_body s e a)
          (snd (_initialize_pheromones w)) with
  | (Ok _, w1) => solve s e a w = (Ok (best_path (self w1), best_path_fee (self w1)), w1)
  | (Raise err, w1) => solve s e a w = (Raise err, w1)
  end.
Proof.
  unfold solve, bind, get_self, ret. simpl.
  by destruct (for_each _ _ _) as [[[]|err] w1].
Qed.

(** ** Deposits that are not negative *)




(** ** Tasks without a route *)

(** A simple path between two different nodes has a first and a last
    link. *)
Lemma simple_path_ends link (s e : node) p :
  s <> e -> simple_path link s e p ->
  (exists v, link s v) /\ (exists u, link u e).
Proof.
  intros Hne (Hh & Hl & _ & Hc).
  destruct p as [|x [|v rest]]; [done| |].
  - simpl in *. congruence.
  - injection Hh as ->. split.
    + exists v. by apply (Hc 0%nat).
    + rewrite last_lookup in Hl. simpl in Hl.
      destruct (lookup_lt_is_Some_2 (s :: v :: rest) (length rest)) as [u Hu];
        [simpl; lia|].
      exists u. by apply (Hc (length rest)).
Qed.

Section no_route.
Context (s e : node) (a : Q) (g : MockNetworkGraph).
Context (Hno : forall p, ~ simple_path (hop g a) s e p).

(** No ant reports a path. *)
Lemma construct_no_route w r w' :
  graph (self w) = g ->
  _construct_path s e a w = (Ok r, w') ->
  r = (None, Inf) /\ self w' = self w /\ stdout w' = stdout w /\ draws w' = draws w.
Proof.
  intros Hg E.
  pose proof (construct_spec s e a w) as Hs. unfold wp in Hs.
  rewrite E in Hs. simpl in Hs. destruct Hs as (Hself & Hout & Hd & Hres).
  destruct r as [[p|] f].
  - destruct Hres as (Hp & _). rewrite Hg in Hp. by apply Hno in Hp.
  - by subst f.
Qed.

Lemma ants_no_route n : forall all w all' w',
  graph (self w) = g ->
  ants n s e a all w = (Ok all', w') ->
  all' = all /\ self w' = self w /\ stdout w' = stdout w /\ draws w' = draws w.
Proof.
  induction n as [|n IH]; intros all w all' w' Hg; simpl.
  - by intros [= <- <-].
  - unfold bind at 1, ant, bind at 1.
    destruct (_construct_path s e a w) as [[r|err] w1] eqn:E; [|done].
    apply construct_no_route in E as (-> & Hs1 & Ho1 & Hd1); [|done]. simpl.
    intros H. apply IH in H as (-> & Hs2 & Ho2 & Hd2); [|congruence].
    split; [done|]. split; [congruence|]. split; congruence.
Qed.

Lemma iteration_body_no_route it w w' :
  graph (self w) = g ->
  iteration_body s e a it w = (Ok tt, w') ->
  w' = failed_turn (cursor w') w it.
Proof.
  intros Hg. unfold iteration_body. erewrite bind_ok by reflexivity.
  unfold bind at 1.
  destruct (ants _ s e a [] w) as [[all|err] w1] eqn:E; [|done].
  apply ants_no_route in E as (-> & Hs & Ho & Hd); [|done].
  unfold _update_pheromones, bind, modify_self, get_self, print. simpl.
  intros [= <-]. unfold failed_turn. simpl. by rewrite Hs, Ho, Hd.
Qed.

Lemma for_each_no_route its : forall w w',
  graph (self w) = g ->
  for_each its (iteration_body s e a) w = (Ok tt, w') ->
  self w' = set_pheromones
              (Nat.iter (length its) (evaporate (evaporation_rate (self w)))
                 (pheromones (self w)))
              (self w)
  /\ draws w' = draws w
  /\ exists ls, stdout w' = stdout w ++ ls /\ length ls = length its
                /\ Forall (fun l => line_best_fee l = best_path_fee (self w)) ls.
Proof.
  induction its as [|it its IH]; intros w w' Hg; simpl.
  - intros [= <-]. split; [by rewrite set_pheromones_self|].
    split; [done|]. exists []. by rewrite app_nil_r.
  - unfold bind at 1.
    destruct (iteration_body s e a it w) as [[[]|err] w1] eqn:E; [|done].
    apply iteration_body_no_route in E; [|done]. intros H.
    apply IH in H as (Hs & Hd & ls & Ho & Hl & Hf); [|by rewrite E].
    rewrite E in Hs, Hd, Ho, Hf. simpl in *.
    split.
    { rewrite Hs. unfold set_pheromones. simpl. f_equal.
      by rewrite <- Nat.iter_succ_r. }
    split; [done|]. eexists (_ :: ls). split; [|split].
    + rewrite Ho. by rewrite <- app_assoc.
    + simpl. by rewrite Hl.
    + by constructor.
Qed.

End no_route.

(** ** Payments that no channel out of the start node can carry *)

Section underfunded.
Context (s e : node) (a : Q).
Context (Hne : s <> e).

Lemma construct_underfunded w :
  (forall ch, ch ∈ get_outgoing_channels (graph (self w)) s -> liquidity ch < a) ->
  _construct_path s e a w = (Ok (None, Inf), w).
Proof.
  intros Hlow.
  assert (Hdead : _select_next_channel s [s] a w = (Ok None, w)).
  { unfold _select_next_channel, bind, get_self, lift. simpl.
    rewrite weigh_channels_infeasible; [done|].
    intros ch Hch [_ Hliq]. specialize (Hlow ch Hch). lra. }
  unfold _construct_path, bind at 1, get_self. simpl.
  destruct (length (get_all_nodes (graph (self w)))) as [|k];
    cbn [construct_loop]; rewrite (bool_decide_eq_false_2 (s = e)) by done;
    cbn [negb andb].
  - done.
  - destruct (length [s] <? S k)%nat; [|done].
    unfold bind. by rewrite Hdead.
Qed.

Lemma ants_underfunded n : forall all w,
  (forall ch, ch ∈ get_outgoing_channels (graph (self w)) s -> liquidity ch < a) ->
  ants n s e a all w = (Ok all, w).
Proof.
  induction n as [|n IH]; intros all w Hlow; simpl; [done|].
  unfold bind at 1, ant, bind at 1. rewrite construct_underfunded by done.
  simpl. by apply IH.
Qed.

Lemma iteration_body_underfunded it w :
  (forall ch, ch ∈ get_outgoing_channels (graph (self w)) s -> liquidity ch < a) ->
  iteration_body s e a it w = (Ok tt, idle_turn w it).
Proof.
  intros Hlow. unfold iteration_body, bind at 1 2, get_self. simpl.
  by rewrite ants_underfunded.
Qed.

Lemma for_each_underfunded its : forall w,
  (forall ch, ch ∈ get_outgoing_channels (graph (self w)) s -> liquidity ch < a) ->
  for_each its (iteration_body s e a) w = (Ok tt, foldl idle_turn w its).
Proof.
  induction its as [|it its IH]; intros w Hlow; simpl; [done|].
  unfold bind. rewrite iteration_body_underfunded by done.
  by apply IH.
Qed.

End underfunded.

(** ** The keys of the store along a call *)






Section keys.
Context (s e : node) (a : Q).





End keys.
(** ** Rounding in double precision *)

Section rounding.
Local Open Scope Z_scope.

Lemma digits2_pos_upper (p : positive) : Zpos p < 2 ^ Zpos (digits2_pos p).
Proof.
  induction p as [p IH|p IH|]; simpl digits2_pos; [| |done];
    rewrite Pos2Z.inj_succ, Z.pow_succ_r by lia; lia.
Qed.

Lemma digits2_pos_lower (p : positive) : 2 ^ (Zpos (digits2_pos p) - 1) <= Zpos p.
Proof.
  induction p as [p IH|p IH|]; simpl digits2_pos; [| |done];
    rewrite Pos2Z.inj_succ; replace (Z.succ (Zpos (digits2_pos p)) - 1)
      with (Z.succ (Zpos (digits2_pos p) - 1)) by lia;
    rewrite Z.pow_succ_r by lia; lia.
Qed.

(** A number below [2 ^ k] has at most [k] digits. *)
Lemma digits2_pos_le (p : positive) (k : Z) :
  Zpos p < 2 ^ k -> Zpos (digits2_pos p) <= k.
Proof.
  intros H. destruct (Z_le_gt_dec (Zpos (digits2_pos p)) k) as [|Hgt]; [done|].
  pose proof (digits2_pos_lower p) as Hl.
  assert (2 ^ k <= 2 ^ (Zpos (digits2_pos p) - 1)); [|lia].
  destruct (Z_lt_le_dec k 0) as [Hk|Hk].
  - rewrite (Z.pow_neg_r 2 k) by done. apply Z.pow_nonneg. lia.
  - apply Z.pow_le_mono_r; lia.
Qed.

(** A number from [2 ^ k] on has more than [k] digits. *)
Lemma digits2_pos_gt (p : positive) (k : Z) :
  0 <= k -> 2 ^ k <= Zpos p -> k < Zpos (digits2_pos p).
Proof.
  intros Hk H. pose proof (digits2_pos_upper p) as Hu.
  apply (Z.pow_lt_mono_r_iff 2); lia.
Qed.

Lemma Zdigits2_nonneg (m : Z) : 0 <= Zdigits2 m.
Proof. by destruct m. Qed.

Lemma Zdigits2_pos (m : Z) : 0 < m -> 0 < Zdigits2 m.
Proof. by destruct m. Qed.

Lemma Zdigits2_zero (m : Z) : 0 <= m -> Zdigits2 m <= 0 -> m = 0.
Proof. destruct m; simpl; lia. Qed.

(** Adding one adds at most one digit and removes none. *)
Lemma Zdigits2_succ (m : Z) :
  0 <= m -> Zdigits2 m <= Zdigits2 (m + 1) <= Zdigits2 m + 1.
Proof.
  intros Hm. destruct m as [|p|p]; [done| |lia].
  replace (Zpos p + 1) with (Zpos (p + 1)) by lia. simpl.
  pose proof (digits2_pos_upper p). pose proof (digits2_pos_lower p).
  split.
  - assert (Zpos (digits2_pos p) - 1 < Zpos (digits2_pos (p + 1))); [|lia].
    apply digits2_pos_gt; lia.
  - apply digits2_pos_le. rewrite Z.pow_add_r by lia. lia.
Qed.

(** One shift to the right removes one digit. *)
Lemma shr_1_digits (r : shr_record) :
  0 <= shr_m r ->
  0 <= shr_m (shr_1 r)
  /\ Zdigits2 (shr_m (shr_1 r)) = Z.max 0 (Zdigits2 (shr_m r) - 1).
Proof.
  destruct r as [[|[p|p|]|p] b c]; simpl; try lia.
Qed.

Lemma iter_shr_1_digits (n : positive) : forall r : shr_record,
  0 <= shr_m r ->
  0 <= shr_m (SpecFloat.iter_pos shr_1 n r)
  /\ Zdigits2 (shr_m (SpecFloat.iter_pos shr_1 n r)) = Z.max 0 (Zdigits2 (shr_m r) - Zpos n).
Proof.
  induction n as [n IH|n IH|]; intros r Hr; cbn [SpecFloat.iter_pos].
  - destruct (shr_1_digits r Hr) as [H1 D1].
    destruct (IH _ H1) as [H2 D2]. destruct (IH _ H2) as [H3 D3].
    split; [done|]. rewrite D3, D2, D1. lia.
  - destruct (IH _ Hr) as [H2 D2]. destruct (IH _ H2) as [H3 D3].
    split; [done|]. rewrite D3, D2. lia.
  - by apply shr_1_digits.
Qed.

(** The shift that brings a mantissa to the exponent of its format. *)
Lemma shr_fexp_digits (m e : Z) (l : location) :
  0 <= m ->
  let r := fst (shr_fexp 53 1024 m e l) in
  let e' := snd (shr_fexp 53 1024 m e l) in
  0 <= shr_m r
  /\ e' = Z.max e (fexp 53 1024 (Zdigits2 m + e))
  /\ Zdigits2 (shr_m r) = Z.max 0 (Zdigits2 m - (e' - e)).
Proof.
  intros Hm. unfold shr_fexp, shr.
  assert (Hrec : shr_m (shr_record_of_loc m l) = m) by by destruct l as [|[]].
  pose proof (Zdigits2_nonneg m) as Hd.
  destruct (fexp 53 1024 (Zdigits2 m + e) - e) as [|n|n] eqn:E; simpl.
  - rewrite Hrec. lia.
  - destruct (iter_shr_1_digits n (shr_record_of_loc m l)) as [H D]; [lia|].
    rewrite Hrec in D. split; [done|]. split; [lia|]. rewrite D. lia.
  - rewrite Hrec. lia.
Qed.

Lemma round_nearest_even_bounds (m : Z) (l : location) :
  m <= round_nearest_even m l <= m + 1.
Proof. destruct l as [|[]]; simpl; try destruct (Z.even m); lia. Qed.

Lemma round_nearest_even_digits (m : Z) (l : location) :
  0 <= m ->
  Zdigits2 m <= Zdigits2 (round_nearest_even m l) <= Zdigits2 m + 1.
Proof.
  intros Hm. pose proof (Zdigits2_succ m Hm).
  destruct l as [|[]]; simpl; try destruct (Z.even m); lia.
Qed.

(** What rounding can give: never NaN, always the sign it was given;
    no infinity for a number below [2 ^ 1023], and no zero for a
    non-zero number at an exponent of the format. *)
Lemma binary_round_aux_cases (s : bool) (m e : Z) (l : location) :
  0 <= m ->
  match binary_round_aux 53 1024 s m e l with
  | S754_zero s' => s' = s /\ (0 < m -> e < -1074)
  | S754_finite s' _ _ => s' = s
  | S754_infinity s' => s' = s /\ (971 < e \/ 1023 < Zdigits2 m + e)
  | S754_nan => False
  end.
Proof.
  intros Hm. unfold binary_round_aux.
  pose proof (shr_fexp_digits m e l Hm) as H1.
  destruct (shr_fexp 53 1024 m e l) as [r1 e1]. simpl in H1.
  destruct H1 as (Hr1 & He1 & Hd1).
  pose proof (round_nearest_even_bounds (shr_m r1) (loc_of_shr_record r1)) as Hb.
  pose proof (round_nearest_even_digits (shr_m r1) (loc_of_shr_record r1) Hr1) as Hrd.
  set (m2 := round_nearest_even (shr_m r1) (loc_of_shr_record r1)) in *.
  assert (Hm2 : 0 <= m2) by lia.
  pose proof (shr_fexp_digits m2 e1 loc_Exact Hm2) as H2.
  destruct (shr_fexp 53 1024 m2 e1 loc_Exact) as [r2 e2]. simpl in H2.
  destruct H2 as (Hr2 & He2 & Hd2).
  unfold fexp, SpecFloat.emin in *.
  pose proof (Zdigits2_nonneg m) as Hdm.
  destruct (shr_m r2) as [|p|p] eqn:E2; [| |lia].
  - split; [done|]. intros Hpos. apply Zdigits2_pos in Hpos. simpl in Hd2. lia.
  - destruct (e2 <=? 1024 - 53) eqn:L; [done|]. split; [done|].
    apply Z.leb_gt in L. lia.
Qed.

Lemma iter_xO_value (d p : positive) :
  Zpos (Pos.iter xO p d) = Zpos p * 2 ^ Zpos d.
Proof.
  induction d as [|d IH] using Pos.peano_ind; [simpl; lia|].
  rewrite Pos.iter_succ, Pos2Z.inj_succ, Z.pow_succ_r by lia.
  rewrite Pos2Z.inj_xO, IH. lia.
Qed.

Lemma iter_xO_digits (d p : positive) :
  Zpos (digits2_pos (Pos.iter xO p d)) = Zpos (digits2_pos p) + Zpos d.
Proof.
  induction d as [|d IH] using Pos.peano_ind; [simpl; lia|].
  rewrite Pos.iter_succ. simpl digits2_pos. rewrite !Pos2Z.inj_succ, IH. lia.
Qed.

(** Rounding a positive integer mantissa. *)
Lemma binary_round_cases (s : bool) (p : positive) (e : Z) :
  match binary_round 53 1024 s p e with
  | S754_zero s' => s' = s /\ e < -1074
  | S754_finite s' _ _ => s' = s
  | S754_infinity s' => s' = s /\ (971 < e \/ 1023 < Zpos (digits2_pos p) + e)
  | S754_nan => False
  end.
Proof.
  unfold binary_round, shl_align.
  destruct (fexp 53 1024 (Zpos (digits2_pos p) + e) - e) as [|n|n] eqn:E.
  - pose proof (binary_round_aux_cases s (Zpos p) e loc_Exact ltac:(lia)) as H.
    destruct (binary_round_aux _ _ _ _ _ _); simpl in *; try done.
    split; [tauto|]. apply H. lia.
  - pose proof (binary_round_aux_cases s (Zpos p) e loc_Exact ltac:(lia)) as H.
    destruct (binary_round_aux _ _ _ _ _ _); simpl in *; try done.
    split; [tauto|]. apply H. lia.
  - pose proof (binary_round_aux_cases s (Zpos (Pos.iter xO p n))
                  (fexp 53 1024 (Zpos (digits2_pos p) + e)) loc_Exact ltac:(lia)) as H.
    simpl Zdigits2 in H. rewrite iter_xO_digits in H.
    unfold fexp, SpecFloat.emin in *.
    destruct (binary_round_aux _ _ _ _ _ _); simpl in *; try done.
    + destruct H as [-> H]. split; [done|]. specialize (H ltac:(lia)). lia.
    + destruct H as [-> H]. split; [done|]. lia.
Qed.
End rounding.

(** ** Signs in double precision *)

Section signs.
Local Open Scope Z_scope.

(** [0.0 <= x]: [x] is a zero, or positive, or the positive infinity. *)
Lemma f64_nonneg_cases (x : float64) :
  f64_leb f64_zero x = true <->
  match x with
  | S754_zero _ => True
  | S754_finite s _ _ | S754_infinity s => s = false
  | S754_nan => False
  end.
Proof. by destruct x as [[]|[]| |[] m e]. Qed.

(** A sum of two numbers that are not negative is not negative: it is
    never NaN. *)
Lemma f64_add_nonneg (x y : float64) :
  f64_leb f64_zero x = true -> f64_leb f64_zero y = true ->
  f64_leb f64_zero (f64_add x y) = true.
Proof.
  rewrite !f64_nonneg_cases.
  destruct x as [sx|sx| |sx mx ex], y as [sy|sy| |sy my ey]; try done;
    intros Hx Hy; simpl in Hx, Hy; subst; try done.
  - by destruct sx, sy.
  - unfold f64_add, SFadd, cond_Zopp, binary_normalize.
    rewrite <- Pos2Z.inj_add.
    pose proof (binary_round_cases false
                  (fst (shl_align mx ex (Z.min ex ey)) + fst (shl_align my ey (Z.min ex ey)))
                  (Z.min ex ey)) as H.
    destruct (binary_round _ _ _ _ _); tauto.
Qed.

(** A product of two numbers that are not negative is not negative,
    except that infinity times zero is NaN. *)
Lemma f64_mul_nonneg (x y : float64) :
  f64_leb f64_zero x = true -> f64_leb f64_zero y = true ->
  f64_finite x && f64_finite y
  || negb (f64_finite x) && f64_ltb f64_zero y
  || f64_ltb f64_zero x && negb (f64_finite y) = true ->
  f64_leb f64_zero (f64_mul x y) = true.
Proof.
  rewrite !f64_nonneg_cases.
  destruct x as [sx|sx| |sx mx ex], y as [sy|sy| |sy my ey]; try done;
    intros Hx Hy; simpl in Hx, Hy; subst; try done.
  intros _. unfold f64_mul, SFmul. cbn [xorb].
  pose proof (binary_round_aux_cases false (Zpos (mx * my)) (ex + ey) loc_Exact
                ltac:(lia)) as H.
  destruct (binary_round_aux _ _ _ _ _ _); tauto.
Qed.

Lemma shl_align_value (mx : positive) (ex ez : Z) :
  ez <= ex -> Zpos (fst (shl_align mx ex ez)) = Zpos mx * 2 ^ (ex - ez).
Proof.
  intros H. unfold shl_align. destruct (ez - ex) as [|d|d] eqn:E; simpl fst.
  - replace (ex - ez) with 0 by lia. lia.
  - lia.
  - rewrite iter_xO_value. f_equal. f_equal. lia.
Qed.

(** [1 - rate] for a rate in [0,1]: zero when the rate is 1, and
    otherwise a positive finite number. *)
Lemma f64_sub_one_rate (rate : float64) :
  f64_valid rate = true ->
  f64_leb f64_zero rate = true -> f64_leb rate f64_one = true ->
  match f64_sub f64_one rate with
  | S754_zero s => s = false /\ f64_ltb rate f64_one = false
  | S754_finite s _ _ => s = false
  | S754_infinity _ | S754_nan => False
  end.
Proof.
  intros Hv H0 H1. apply f64_nonneg_cases in H0.
  destruct rate as [s|s| |s m e]; try done.
  { by destruct s. }
  simpl in H0. subst s.
  unfold f64_valid, valid_binary, bounded, canonical_mantissa in Hv.
  apply andb_prop in Hv as [Hc _]. apply Z.eqb_eq in Hc.
  unfold fexp, SpecFloat.emin in Hc.
  pose proof (digits2_pos_upper m) as Hm.
  assert (Hm53 : Zpos m < 2 ^ 53).
  { eapply Z.lt_le_trans; [exact Hm|]. apply Z.pow_le_mono_r; lia. }
  assert (He : e <= -52 /\ (e = -52 -> Zpos m <= 2 ^ 52)).
  { revert H1. unfold f64_leb, SFleb, f64_one, SFcompare.
    destruct (Z.compare_spec e (-52)) as [Hee|Hlt|Hgt].
    - rewrite Pos.compare_cont_spec.
      destruct (Pos.compare_spec m 4503599627370496) as [Heq|Hlt|Hgt].
      + intros _. split; [lia|]. intros _. rewrite Heq. by vm_compute.
      + intros _. apply Pos2Z.pos_lt_pos in Hlt. split; lia.
      + intros H1. discriminate H1.
    - intros _. split; lia.
    - intros H1. discriminate H1. }
  destruct He as (He & Hm52).
  unfold f64_sub, f64_one, SFsub, cond_Zopp.
  rewrite Z.min_r by lia.
  pose proof (shl_align_value 4503599627370496 (-52) e ltac:(lia)) as Va.
  pose proof (shl_align_value m e e ltac:(lia)) as Vb.
  set (a := fst (shl_align 4503599627370496 (-52) e)) in *.
  set (b := fst (shl_align m e e)) in *.
  replace (e - e) with 0 in Vb by lia.
  assert (Hpow : Zpos a = 2 ^ (- e)).
  { rewrite Va. change (Zpos 4503599627370496) with (2 ^ 52).
    rewrite <- Z.pow_add_r by lia. f_equal. lia. }
  assert (Hle : 2 ^ 53 <= 2 ^ (- e) \/ e = -52).
  { destruct (Z.eq_dec e (-52)) as [|Hne]; [by right|left].
    apply Z.pow_le_mono_r; lia. }
  assert (Hd : 0 <= Zpos a - Zpos b < 2 ^ (- e)).
  { rewrite Hpow, Vb. destruct Hle as [Hle| ->]; [lia|].
    specialize (Hm52 eq_refl). simpl in *. lia. }
  unfold binary_normalize.
  destruct (Zpos a - Zpos b) as [|p|p] eqn:D; [| |lia].
  - split; [done|].
    destruct (f64_ltb (S754_finite false m e) f64_one) eqn:L; [|done].
    exfalso. revert L. unfold f64_ltb, SFltb, f64_one, SFcompare.
    destruct Hle as [Hle| ->]; [lia|].
    specialize (Hm52 eq_refl). rewrite Hpow, Vb in D.
    assert (Hz : Zpos m = Zpos 4503599627370496) by (simpl in *; lia).
    injection Hz as ->. done.
  - pose proof (binary_round_cases false p e) as H.
    assert (Hp : Zpos (digits2_pos p) <= - e) by (apply digits2_pos_le; lia).
    destruct (binary_round _ _ _ _ _); try tauto; lia.
Qed.
End signs.

(** ** The store in double precision *)

Lemma init_channels64_nonneg cs : forall ph,
  (forall edge level, ph !! edge = Some level -> f64_leb f64_zero level = true) ->
  forall edge level, foldl init_channel64 ph cs !! edge = Some level ->
                     f64_leb f64_zero level = true.
Proof.
  induction cs as [|c cs IH]; intros ph H; simpl; [done|].
  apply IH. intros edge level. unfold init_channel64.
  destruct (decide ((source c, destination c) = edge)) as [->|Hne].
  - rewrite lookup_insert_eq. by intros [= <-].
  - rewrite lookup_insert_ne by done. apply H.
Qed.

Lemma initial_store64_nonneg g ns : forall ph,
  (forall edge level, ph !! edge = Some level -> f64_leb f64_zero level = true) ->
  forall edge level, foldl (init_node64 g) ph ns !! edge = Some level ->
                     f64_leb f64_zero level = true.
Proof.
  induction ns as [|n ns IH]; intros ph H; simpl; [done|].
  apply IH. by apply init_channels64_nonneg.
Qed.

(** A decay keeps the levels from below zero, unless it multiplies an
    infinite level by zero. *)
Lemma evaporate64_nonneg rate ph :
  f64_valid rate = true ->
  f64_leb f64_zero rate = true -> f64_leb rate f64_one = true ->
  no_infinite_level_at_rate_one rate ph ->
  (forall edge level, ph !! edge = Some level -> f64_leb f64_zero level = true) ->
  forall edge level, evaporate64 rate ph !! edge = Some level ->
                     f64_leb f64_zero level = true.
Proof.
  intros Hv H0 H1 Hok IH edge level. unfold evaporate64. rewrite lookup_fmap.
  destruct (ph !! edge) as [x|] eqn:E; [|done]. cbn [fmap option_fmap option_map].
  intros Hl. apply (inj Some) in Hl. subst level.
  pose proof (IH _ _ E) as Hx.
  pose proof (f64_sub_one_rate rate Hv H0 H1) as Hs.
  destruct (f64_sub f64_one rate) as [s|s| |s m e] eqn:S; try done.
  - destruct Hs as [-> Hlt]. destruct Hok as [Hok|Hok]; [congruence|].
    apply Hok in E. apply f64_mul_nonneg; [done|reflexivity|].
    by rewrite E.
  - subst s. apply f64_mul_nonneg; [done|reflexivity|].
    by destruct x.
Qed.

Lemma deposit64_nonneg edge amount ph :
  f64_leb f64_zero amount = true ->
  (forall edge level, ph !! edge = Some level -> f64_leb f64_zero level = true) ->
  forall edge' level, deposit64 edge amount ph !! edge' = Some level ->
                      f64_leb f64_zero level = true.
Proof.
  intros Ha IH edge' level. unfold deposit64.
  destruct (decide (edge = edge')) as [->|Hne].
  - rewrite lookup_insert_eq. intros Hl. apply (inj Some) in Hl. subst level.
    apply f64_add_nonneg; [|done].
    destruct (ph !! edge') as [x|] eqn:E; simpl; [by apply (IH edge')|done].
  - rewrite lookup_insert_ne by done. apply IH.
Qed.

(** * The claims *)

(** C1: a feasible channel does not keep the selector from reporting
    "stuck".  With an evaporation rate of 1, one iteration without a
    complete path leaves every level at 0, a store that decay reaches
    from the initial one; from then on the channel A -> B, whose
    destination is new and whose capacity suffices, has weight 0 and the
    selector returns no channel.  In a call with two iterations the ant
    of the second iteration is stuck at once: the call consults the
    generator a single time. *)
Theorem feasible_channel_yet_stuck :
  let w := world_of (LightningACO_init dead_end_network 1 1 1 2 1 100) (always 0) in
  let w1 := snd (solve "A" "C" 100 w) in
  let c := {| source := "A"; destination := "B"; liquidity := 1000;
              base_fee := 1; fee_rate := 0 |} in
  reachable_store dead_end_network (pheromones (self w1))
  /\ c ∈ get_outgoing_channels (graph (self w1)) "A"
  /\ feasible ["A"] 100 c
  /\ fst (_select_next_channel "A" ["A"] 100 w1) = Ok None
  /\ cursor (snd (solve "A" "C" 100
                    (world_of (LightningACO_init dead_end_network 1 2 1 2 1 100)
                       (always 0)))) = 1%nat.
Proof.
  intros w w1 c. split; [|split; [|split; [|split]]]; [| | | |by vm_compute].
  - replace (pheromones (self w1))
      with (evaporate 1 (foldl (init_node dead_end_network) ∅
                           (get_all_nodes dead_end_network)))
      by by vm_compute.
    apply reach_decay; [done..|]. apply reach_init.
  - by left.
  - split; [|done]. simpl. by intros [H|H]%elem_of_cons; [|apply elem_of_nil in H].
  - by vm_compute.
Qed.

(** C2: [solve] does not reset the best solution.  After a first call
    that found A -> B -> D at fee 2.2, a second call on the same solver
    object for the route from A to C returns the first call's path and
    fee, where a newly constructed solver with the generator in the same
    position returns A -> C at fee 5.5. *)
Theorem second_solve_returns_stale_best :
  let s := LightningACO_init network 1 1 1 2 (1 # 2) 100 in
  let w1 := snd (solve "A" "D" 100 (world_of s low_then_high)) in
  fst (solve "A" "D" 100 (world_of s low_then_high))
  = Ok (Some ["A"; "B"; "D"], Fin 2.200000)
  /\ cursor w1 = 2%nat
  /\ fst (solve "A" "C" 100 w1) = Ok (Some ["A"; "B"; "D"], Fin 2.200000)
  /\ fst (solve "A" "C" 100
            {| self := s; draws := low_then_high; cursor := 2; stdout := [] |})
     = Ok (Some ["A"; "C"], Fin 5.500).
Proof. repeat split; by vm_compute. Qed.




(** C4: the deposit [Q / total_fee] is not guarded.  An update for a
    round that contains a complete path of fee 0 raises
    [ZeroDivisionError], and so does [solve] over a network whose only
    channel charges nothing. *)
Theorem zero_fee_path_faults :
  (forall p rest w,
      fst (_update_pheromones ((p, Fin 0) :: rest) w) = Raise ZeroDivisionError)
  /\ let w := world_of (LightningACO_init free_network 1 1 1 2 (1 # 2) 100) (always 0) in
     fst (_construct_path "A" "B" 100 w) = Ok (Some ["A"; "B"], Fin 0)
     /\ fst (solve "A" "B" 100 w) = Raise ZeroDivisionError.
Proof.
  split; [apply update_zero_fee|]. split; by vm_compute.
Qed.

(** C5, the claim as stated fails: on the empty topology, with the start
    node as the destination, the constructor reports the complete path
    [start], whose length 1 exceeds the node count 0. *)
Lemma trivial_path_exceeds_node_count :
  let w := world_of (LightningACO_init MockNetworkGraph_init 1 1 1 2 (1 # 2) 100) (always 0) in
  fst (_construct_path "A" "A" 100 w) = Ok (Some ["A"], Fin 0)
  /\ ~ (length ["A"] <= length (get_all_nodes (graph (self w))))%nat.
Proof. split; [by vm_compute | simpl; lia]. Qed.

(** C5, amended: for every path that the Path Constructor returns as
    complete, and hence for the best path that [solve] returns on a
    solver without an earlier best path, over a topology built by
    [add_channel]: the path leads from the start node to the end node,
    every consecutive node pair is a directed edge of the topology with
    capacity at least the payment amount, no node occurs twice, and the
    path length is at most the node count or 1 (the one-node path of a
    start node that is the destination). *)
Theorem complete_paths_are_valid (start_node end_node : node) (payment_amount : Q)
    (w : World) (p : list node) :
  wf_graph (graph (self w)) ->
  (exists f, fst (_construct_path start_node end_node payment_amount w) = Ok (Some p, f))
  \/ (best_path (self w) = None
      /\ exists f, fst (solve start_node end_node payment_amount w) = Ok (Some p, f)) ->
  simple_path (edge (graph (self w)) payment_amount) start_node end_node p
  /\ (length p <= Nat.max 1 (length (get_all_nodes (graph (self w)))))%nat.
Proof.
  intros Hg H. apply constructed_edges; [done|].
  destruct H as [[f H]|[Hb [f H]]].
  - destruct (construct_spec start_node end_node payment_amount w) as (_ & _ & _ & Hr).
    rewrite H in Hr. by destruct Hr as (? & ? & _).
  - destruct (solve_spec start_node end_node payment_amount w)
      as ((_ & _ & _ & Hp) & _ & Hr).
    rewrite H in Hr. injection Hr as Hr _.
    destruct Hp as [Hp|[p' [Hp Hc]]]; congruence.
Qed.

(** The best path of a call over the demonstration network. *)
Lemma complete_paths_are_valid_witness :
  let w := world_of (LightningACO_init network 1 2 1 2 (1 # 2) 100) high_then_low in
  simple_path (edge network 100) "A" "D" ["A"; "B"; "D"]
  /\ (length ["A"; "B"; "D"] <= Nat.max 1 (length (get_all_nodes network)))%nat.
Proof.
  apply (complete_paths_are_valid "A" "D" 100
           (world_of (LightningACO_init network 1 2 1 2 (1 # 2) 100) high_then_low)).
  - exact wf_graph_network.
  - right. split; [done|]. eexists. by vm_compute.
Defined.

(** C6, the claim as stated fails in the arithmetic of the program.  On
    the edge A -> B of the demonstration network, two deposits of 1e308
    on the initial level 1.0 overflow to +infinity, and a decay at the
    rate 1.0 multiplies that level by 0.0: the level is NaN, which is
    not [>= 0]. *)
Lemma overflowed_level_decays_to_nan :
  let ph0 := foldl (init_node64 network) ∅ (get_all_nodes network) in
  let ph1 := deposit64 ("A", "B") f64_1e308 ph0 in
  let ph2 := deposit64 ("A", "B") f64_1e308 ph1 in
  let ph3 := evaporate64 f64_one ph2 in
  f64_valid f64_1e308 = true
  /\ f64_leb f64_zero f64_1e308 = true
  /\ reachable_store64 any_decay network ph3
  /\ ph0 !! ("A", "B") = Some f64_one
  /\ ph1 !! ("A", "B") = Some f64_1e308
  /\ ph2 !! ("A", "B") = Some (S754_infinity false)
  /\ ph3 !! ("A", "B") = Some S754_nan
  /\ f64_leb f64_zero S754_nan = false.
Proof.
  split; [done|]. split; [done|]. split.
  { apply reach64_decay; [done|done|done|done|].
    apply reach64_deposit; [done|]. apply reach64_deposit; [done|].
    apply reach64_init. }
  repeat split; by vm_compute.
Qed.

(** C6, amended: in double precision, every pheromone level of a store
    obtained from the initial store of a topology (level 1.0 on each
    edge) by any finite sequence of decays with a rate in [0,1] and
    deposits of amounts that are not negative is [>= 0], possibly
    +infinity and never NaN, provided that no decay at the rate 1.0 is
    applied to a store that holds an infinite level. *)
Theorem pheromone_levels_nonneg64 (g : MockNetworkGraph)
    (ph : gmap (node * node) float64) :
  reachable_store64 no_infinite_level_at_rate_one g ph ->
  forall edge level, ph !! edge = Some level -> f64_leb f64_zero level = true.
Proof.
  induction 1 as [|rate ph Hv Hr0 Hr1 Hok _ IH|edge amount ph Ha _ IH].
  - apply initial_store64_nonneg. intros edge level. by rewrite lookup_empty.
  - by apply evaporate64_nonneg.
  - by apply deposit64_nonneg.
Qed.

(** The level of A -> B in the demonstration network after two deposits
    of 1e308 and a decay at the rate 0.5: it is +infinity. *)
Lemma pheromone_levels_nonneg64_witness :
  let ph0 := foldl (init_node64 network) ∅ (get_all_nodes network) in
  let ph := evaporate64 f64_half
              (deposit64 ("A", "B") f64_1e308 (deposit64 ("A", "B") f64_1e308 ph0)) in
  ph !! ("A", "B") = Some (S754_infinity false)
  /\ f64_leb f64_zero (S754_infinity false) = true.
Proof.
  split; [by vm_compute|].
  apply (pheromone_levels_nonneg64 network
           (evaporate64 f64_half
              (deposit64 ("A", "B") f64_1e308
                 (deposit64 ("A", "B") f64_1e308
                    (foldl (init_node64 network) ∅ (get_all_nodes network)))))
           (reach64_decay _ network f64_half _ eq_refl eq_refl eq_refl
              (or_introl eq_refl)
              (reach64_deposit _ network ("A", "B") f64_1e308 _ eq_refl
                 (reach64_deposit _ network ("A", "B") f64_1e308 _ eq_refl
                    (reach64_init _ network))))
           ("A", "B")).
  by vm_compute.
Defined.

(** C7: within a call of [solve], the best fee recorded at the end of an
    iteration (the one the iteration prints) never exceeds the best fee
    recorded at the end of the iteration before:
    best_fee(i+1) <= best_fee(i). *)
Theorem best_fee_nonincreasing (start_node end_node : node) (payment_amount : Q)
    (w : World) (i : nat) (f1 f2 : float) :
  printed w (snd (solve start_node end_node payment_amount w)) !! i = Some f1 ->
  printed w (snd (solve start_node end_node payment_amount w)) !! S i = Some f2 ->
  float_le f2 f1.
Proof.
  destruct (solve_spec start_node end_node payment_amount w)
    as (_ & (ls & Ho & Hc & _) & _).
  unfold printed. rewrite Ho, drop_app_length.
  intros H1 H2. by apply (Hc i f1 f2).
Qed.

(** One ant, two iterations: the first finds A -> C -> D, the second
    A -> B -> D. *)
Lemma best_fee_nonincreasing_witness :
  let w := world_of (LightningACO_init network 1 2 1 2 (1 # 2) 100) high_then_low in
  printed w (snd (solve "A" "D" 100 w)) = [Fin 11.000000; Fin 2.200000]
  /\ float_le (Fin 2.200000) (Fin 11.000000).
Proof.
  split; [by vm_compute|].
  apply (best_fee_nonincreasing "A" "D" 100
           (world_of (LightningACO_init network 1 2 1 2 (1 # 2) 100) high_then_low) 0);
    by vm_compute.
Defined.

(** C8: [solve] is a function of the topology, the parameters, the
    solver's state and the generator.  Two runs on solver objects in the
    same state over the same topology, with the same generator at the
    same position, return the same best path and the same best fee (or
    raise the same exception); the order in which the node set happens
    to iterate in either run has no influence. *)
Theorem solve_deterministic (s1 s2 : LightningACO) (d : nat -> Q) (c : nat)
    (out : list line) (start_node end_node : node) (payment_amount : Q) :
  same_solver s1 s2 ->
  fst (solve start_node end_node payment_amount
         {| self := s1; draws := d; cursor := c; stdout := out |})
  = fst (solve start_node end_node payment_amount
           {| self := s2; draws := d; cursor := c; stdout := out |}).
Proof.
  intros ([Hn Hc] & H).
  set (w2 := {| self := s2; draws := d; cursor := c; stdout := out |}).
  assert (Hw : {| self := s1; draws := d; cursor := c; stdout := out |}
               = with_nodes (nodes (graph s1)) w2).
  { unfold with_nodes, set_self, set_graph_nodes. simpl. f_equal.
    destruct s1 as [[ns1 ch1] ? ? ? ? ? ? ? ? ?], s2 as [[ns2 ch2] ? ? ? ? ? ? ? ? ?].
    simpl in *. destruct H as (?&?&?&?&?&?&?&?&?). by subst. }
  rewrite Hw, solve_with_nodes; done.
Qed.

(** The demonstration network with its node set iterating in the
    reverse order. *)
Lemma solve_deterministic_witness :
  let g := {| nodes := ["C"; "D"; "B"; "A"]; channels := channels network |} in
  fst (solve "A" "D" 100
         (world_of (LightningACO_init g 1 2 1 2 (1 # 2) 100) high_then_low))
  = fst (solve "A" "D" 100
           (world_of (LightningACO_init network 1 2 1 2 (1 # 2) 100) high_then_low)).
Proof.
  apply (solve_deterministic
           (LightningACO_init
              {| nodes := ["C"; "D"; "B"; "A"]; channels := channels network |}
              1 2 1 2 (1 # 2) 100)
           (LightningACO_init network 1 2 1 2 (1 # 2) 100)).
  repeat split. simpl.
  change (nodes network) with (rev ["C"; "D"; "B"; "A"]).
  apply Permutation_rev.
Defined.

(** C9: when the start node is the destination, the loop of the Path
    Constructor does not run and every agent reports the one-node path
    with fee 0.  [solve] does not return it: as soon as an iteration has
    an ant to run, the deposit for that path divides by its fee and the
    call ends in a [ZeroDivisionError]. *)
Theorem trivial_route_raises (start_node : node) (payment_amount : Q) (w : World) :
  (0 < iterations (self w))%Z -> (0 < num_ants (self w))%Z ->
  fst (_construct_path start_node start_node payment_amount w)
  = Ok (Some [start_node], Fin 0)
  /\ fst (solve start_node start_node payment_amount w) = Raise ZeroDivisionError.
Proof.
  intros Hi Hn. split; [by rewrite construct_path_trivial|].
  unfold solve.
  erewrite bind_ok by reflexivity. erewrite bind_ok by reflexivity.
  apply bind_raise. simpl. unfold range.
  destruct (Z.to_nat (iterations (self w))) as [|k] eqn:E; [lia|].
  simpl. by apply bind_raise, iteration_body_trivial.
Qed.

(** The demonstration's solver asked for the route from A to A. *)
Lemma trivial_route_raises_witness :
  let w := world_of (LightningACO_init network 20 50 1 2 (1 # 2) 100) (always 0) in
  fst (_construct_path "A" "A" 100 w) = Ok (Some ["A"], Fin 0)
  /\ fst (solve "A" "A" 100 w) = Raise ZeroDivisionError.
Proof.
  apply (trivial_route_raises "A" 100
           (world_of (LightningACO_init network 20 50 1 2 (1 # 2) 100) (always 0)));
    simpl; lia.
Defined.

(** C10, the claim as stated fails: a solver constructed with no ants and
    one iteration does run the iteration body; the store decays (the
    level of A->B is 1/2 and no longer the initial 1) and a line is
    printed. *)
Lemma no_ants_still_updates :
  let w := world_of (LightningACO_init network 0 1 1 2 (1 # 2) 100) (always 0) in
  let w' := snd (solve "A" "D" 100 w) in
  (num_ants (self w) <= 0)%Z
  /\ pheromones (self (snd (_initialize_pheromones w))) !! ("A", "B") = Some 1
  /\ pheromones (self w') !! ("A", "B") = Some (1 # 2)
  /\ length (stdout w') = 1%nat.
Proof. repeat split; by vm_compute. Qed.

(** C10, amended: if the solver is constructed with [iterations <= 0] or
    with [num_ants <= 0], [solve] launches no agent (the generator is not
    consulted), raises no error and returns (none, +infinity).  With
    [iterations <= 0] no iteration body runs: the store is the initial
    one and nothing is printed.  With [num_ants <= 0] every iteration
    still decays the store and prints its line. *)
Theorem solve_without_iterations_or_ants (g : MockNetworkGraph)
    (n_ants n_iterations a b : Z) (evap_rate q : Q)
    (d : nat -> Q) (c : nat) (out : list line)
    (start_node end_node : node) (payment_amount : Q) :
  (n_iterations <= 0)%Z \/ (n_ants <= 0)%Z ->
  let w := {| self := LightningACO_init g n_ants n_iterations a b evap_rate q;
              draws := d; cursor := c; stdout := out |} in
  let w' := snd (solve start_node end_node payment_amount w) in
  fst (solve start_node end_node payment_amount w) = Ok (None, Inf)
  /\ cursor w' = c
  /\ pheromones (self w')
     = Nat.iter (Z.to_nat n_iterations) (evaporate evap_rate)
         (pheromones (self (snd (_initialize_pheromones w))))
  /\ exists ls, stdout w' = out ++ ls /\ length ls = Z.to_nat n_iterations.
Proof.
  intros H w w'. subst w'. rewrite solve_idle by done. simpl.
  split; [done|].
  destruct (idle_turns_config (range n_iterations) (snd (_initialize_pheromones w)))
    as (Hs & Hc & _ & ls & Ho & Hl).
  simpl in *. rewrite Hs, Hc, Ho, length_range in *. simpl.
  repeat split; try done. by exists ls.
Qed.

(** Three iterations without ants over the demonstration network. *)
Lemma solve_without_iterations_or_ants_witness :
  let w := world_of (LightningACO_init network 0 3 1 2 (1 # 2) 100) (always 0) in
  let w' := snd (solve "A" "D" 100 w) in
  fst (solve "A" "D" 100 w) = Ok (None, Inf)
  /\ cursor w' = 0%nat
  /\ pheromones (self w')
     = Nat.iter 3 (evaporate (1 # 2)) (pheromones (self (snd (_initialize_pheromones w))))
  /\ exists ls, stdout w' = [] ++ ls /\ length ls = 3%nat.
Proof.
  apply (solve_without_iterations_or_ants network 0 3 1 2 (1 # 2) 100 (always 0) 0 []
           "A" "D" 100).
  right. lia.
Defined.

(** * Further properties of the code *)

(** ** [MockChannel] and [MockNetworkGraph] *)

(** X1: [add_channel] appends the new channel to the list of its source,
    after the channels added before, and leaves the list of every other
    node as it was; a source seen for the first time starts from the
    empty list. *)
Theorem add_channel_outgoing (g : MockNetworkGraph) (src dest : node)
    (liq bfee rate : Q) (u : node) :
  get_outgoing_channels (add_channel g src dest liq bfee rate) u
  = if decide (u = src)
    then get_outgoing_channels g src
           ++ [{| source := src; destination := dest; liquidity := liq;
                  base_fee := bfee; fee_rate := rate |}]
    else get_outgoing_channels g u.
Proof.
  unfold get_outgoing_channels, add_channel. simpl.
  rewrite lookup_insert. destruct (decide (u = src)) as [->|Hu].
  - rewrite decide_True by done. simpl.
    destruct (channels g !! src) as [cs|] eqn:E; simpl.
    + by rewrite E.
    + by rewrite lookup_insert_eq.
  - rewrite decide_False by done.
    destruct (channels g !! src) as [cs|] eqn:E; [done|].
    by rewrite lookup_insert_ne.
Qed.

(** X2: the nodes after [add_channel] are the nodes before together with
    the two ends of the new channel. *)
Theorem add_channel_nodes (g : MockNetworkGraph) (src dest : node)
    (liq bfee rate : Q) (n : node) :
  n ∈ get_all_nodes (add_channel g src dest liq bfee rate)
  <-> n ∈ get_all_nodes g \/ n = src \/ n = dest.
Proof.
  unfold get_all_nodes, add_channel. simpl.
  rewrite !elem_of_set_add. tauto.
Qed.

(** X3: in a topology built by [add_channel] no node is listed twice,
    every channel is listed under its own source, and both ends of every
    channel are nodes; a node outside the node set has no channel. *)
Theorem built_graph_invariant (g : MockNetworkGraph) :
  built g ->
  NoDup (get_all_nodes g)
  /\ wf_graph g
  /\ (forall u c, c ∈ get_outgoing_channels g u ->
                  u ∈ get_all_nodes g /\ destination c ∈ get_all_nodes g)
  /\ (forall u, u ∉ get_all_nodes g -> get_outgoing_channels g u = []).
Proof.
  intros Hb.
  assert (H : NoDup (get_all_nodes g) /\ wf_graph g
              /\ forall u c, c ∈ get_outgoing_channels g u ->
                             u ∈ get_all_nodes g /\ destination c ∈ get_all_nodes g).
  { induction Hb as [|g src dest liq bfee rate _ (Hnd & Hwf & Hends)].
    - split; [apply NoDup_nil_2|]. split; [apply wf_graph_init|].
      intros u c Hc. by apply wf_graph_init in Hc as Hs; apply elem_of_nil in Hc.
    - split; [by apply NoDup_set_add, NoDup_set_add|].
      split; [by apply wf_graph_add_channel|].
      intros u c. rewrite get_outgoing_add_channel, !nodes_add_channel.
      destruct (decide (u = src)) as [->|Hu].
      + intros [Hc|Hc]%elem_of_app.
        * destruct (Hends src c Hc). tauto.
        * apply list_elem_of_singleton in Hc as ->. simpl. tauto.
      + intros Hc. destruct (Hends u c Hc). tauto. }
  destruct H as (Hnd & Hwf & Hends). repeat split; try done; try by apply Hends.
  - by eapply Hends.
  - by eapply Hends.
  - intros u Hu. destruct (get_outgoing_channels g u) as [|c cs] eqn:E; [done|].
    exfalso. apply Hu. apply (Hends u c). rewrite E. by left.
Qed.

(** The demonstration network. *)
Lemma built_graph_invariant_witness :
  NoDup (get_all_nodes network)
  /\ wf_graph network
  /\ (forall u c, c ∈ get_outgoing_channels network u ->
                  u ∈ get_all_nodes network /\ destination c ∈ get_all_nodes network)
  /\ (forall u, u ∉ get_all_nodes network -> get_outgoing_channels network u = []).
Proof. apply (built_graph_invariant network). exact built_network. Defined.

(** X4: with a base fee and a fee rate that are not negative, the fee of
    a channel is not negative for a non-negative amount and does not
    decrease when the amount grows. *)
Theorem calculate_fee_monotone (c : MockChannel) (a b : Q) :
  0 <= base_fee c -> 0 <= fee_rate c -> 0 <= a -> a <= b ->
  0 <= calculate_fee c a /\ calculate_fee c a <= calculate_fee c b.
Proof.
  intros Hb Hr Ha Hab. unfold calculate_fee. split; nra.
Qed.

(** The channel A -> B of the demonstration, for 100 and for 200. *)
Lemma calculate_fee_monotone_witness :
  let c := {| source := "A"; destination := "B"; liquidity := 1000;
              base_fee := 1; fee_rate := 1 # 1000 |} in
  0 <= calculate_fee c 100 /\ calculate_fee c 100 <= calculate_fee c 200.
Proof.
  apply (calculate_fee_monotone
           {| source := "A"; destination := "B"; liquidity := 1000;
              base_fee := 1; fee_rate := 1 # 1000 |} 100 200); simpl; lra.
Defined.

(** ** The pheromone store *)

(** X5: [_initialize_pheromones] never fails; it sets the level of every
    channel listed under a node of the topology to 1 and leaves every
    other key of the store as it was (it does not clear the store). *)
Theorem initialize_pheromones_lookup (w : World) (k : node * node) :
  fst (_initialize_pheromones w) = Ok tt
  /\ (channel_key (graph (self w)) k ->
      pheromones (self (snd (_initialize_pheromones w))) !! k = Some 1)
  /\ (~ channel_key (graph (self w)) k ->
      pheromones (self (snd (_initialize_pheromones w))) !! k
      = pheromones (self w) !! k).
Proof.
  split; [done|]. simpl. split.
  - intros (n & c & Hn & Hc & <-). by apply (initial_store_edge _ _ _ n).
  - intros Hk. apply initial_store_other. intros n c Hn Hc Heq.
    apply Hk. by exists n, c.
Qed.

(** X6: whether [_update_pheromones] returns or raises, an edge that lies
    on no path of the round has only decayed: its level is the old one
    times [1 - evaporation_rate], and an edge that was not stored is
    still not stored. *)
Theorem update_off_path_decays (all_paths : list (list node * float))
    (w : World) (k : node * node) :
  (forall p f, (p, f) ∈ all_paths -> k ∉ edges_of p) ->
  pheromones (self (snd (_update_pheromones all_paths w))) !! k
  = (fun level => level * (1 - evaporation_rate (self w)))
      <$> (pheromones (self w) !! k).
Proof.
  intros Hoff.
  change (wp (_update_pheromones all_paths)
            (fun _ w' => pheromones (self w') !! k
                         = (fun level => level * (1 - evaporation_rate (self w)))
                             <$> (pheromones (self w) !! k)) w).
  unfold _update_pheromones. apply wp_bind, wp_modify_self.
  apply (wp_for_each (fun w' => pheromones (self w') !! k
                        = (fun level => level * (1 - evaporation_rate (self w)))
                            <$> (pheromones (self w) !! k))).
  - simpl. unfold evaporate. by rewrite lookup_fmap.
  - intros [p f] w1 Hin HI. unfold deposit_path.
    apply wp_bind, wp_get_self. apply wp_bind, wp_lift.
    destruct (pydiv_float _ _) as [d|e]; [|done].
    unfold wp. rewrite for_each_deposit. simpl.
    rewrite deposit_all_notin; [done|]. by eapply Hoff.
  - done.
Qed.

(** After a round in which A -> B -> D was found, the edge A -> C has
    decayed from 1 to 1/2. *)
Lemma update_off_path_decays_witness :
  let w := snd (_initialize_pheromones
                  (world_of (LightningACO_init network 1 1 1 2 (1 # 2) 100) (always 0))) in
  pheromones (self (snd (_update_pheromones [(["A"; "B"; "D"], Fin (11 # 5))] w)))
    !! ("A", "C")
  = (fun level => level * (1 - evaporation_rate (self w)))
      <$> (pheromones (self w) !! ("A", "C")).
Proof.
  apply (update_off_path_decays [(["A"; "B"; "D"], Fin (11 # 5))]).
  intros p f [[= -> ->]|H]%elem_of_cons; [|by apply elem_of_nil in H].
  vm_compute. intros H. repeat (apply elem_of_cons in H as [H|H]; [done|]).
  by apply elem_of_nil in H.
Defined.



(** ** The Edge Selector *)

(** X8: when no outgoing channel of the current node is feasible (there
    is none, every destination was visited, or no capacity suffices) the
    selector reports "stuck" without computing a weight and without
    consulting the generator: the world is left as it was. *)
Theorem select_dead_end (current_node : node) (visited_nodes : list node)
    (payment_amount : Q) (w : World) :
  (forall c, c ∈ get_outgoing_channels (graph (self w)) current_node ->
             ~ feasible visited_nodes payment_amount c) ->
  _select_next_channel current_node visited_nodes payment_amount w = (Ok None, w).
Proof.
  intros H. unfold _select_next_channel, bind, get_self, lift. simpl.
  by rewrite weigh_channels_infeasible.
Qed.

(** A payment of 2000 from A: both channels out of A carry 1000. *)
Lemma select_dead_end_witness :
  let w := world_of (LightningACO_init network 1 1 1 2 (1 # 2) 100) (always 0) in
  _select_next_channel "A" ["A"] 2000 w = (Ok None, w).
Proof.
  apply (select_dead_end "A" ["A"] 2000
           (world_of (LightningACO_init network 1 1 1 2 (1 # 2) 100) (always 0))).
  intros c Hc [_ Hliq]. revert Hliq.
  repeat (apply elem_of_cons in Hc as [->|Hc]; [by vm_compute|]).
  by apply elem_of_nil in Hc.
Defined.


(** ** The Path Constructor *)

(** X12: every way a call of the Path Constructor can end.  A path it
    returns starts at the start node, ends at the end node and follows a
    sequence of channels, each an outgoing channel of the node reached so
    far that leads to a node not yet on the path and can carry the
    payment; the fee it returns is the sum, from 0, of the fees of these
    channels in order, and the generator was consulted once per channel.
    A failure is reported as (none, +infinity).  When it reports a
    failure and when it raises an exception, the solver object and the
    output are untouched. *)
Theorem path_constructor_outcomes (start_node end_node : node) (payment_amount : Q)
    (w : World) :
  match _construct_path start_node end_node payment_amount w with
  | (Ok (Some p, f), w') =>
      exists cs,
        route (graph (self w)) payment_amount [start_node] start_node cs
        /\ p = start_node :: map destination cs
        /\ last p = Some end_node
        /\ f = Fin (route_fee payment_amount 0 cs)
        /\ w' = after_draws (length cs) w
  | (Ok (None, f), w') =>
      f = Inf /\ self w' = self w /\ stdout w' = stdout w /\ draws w' = draws w
  | (Raise err, w') =>
      self w' = self w /\ stdout w' = stdout w /\ draws w' = draws w
  end.
Proof.
  pose proof (construct_spec start_node end_node payment_amount w) as Hs. unfold wp in Hs.
  destruct (_construct_path start_node end_node payment_amount w) as [[[[p|] f]|err] w'] eqn:E; simpl in Hs.
  - destruct Hs as (_ & _ & _ & (_ & Hlast & _) & _).
    unfold _construct_path, bind, get_self in E. simpl in E.
    apply construct_loop_route in E as (cs & Hroute & -> & -> & ->).
    by exists cs.
  - tauto.
  - tauto.
Qed.

(** ** [solve] *)

(** X13: when the topology has no simple path of channels of sufficient
    capacity from the start node to the end node, a call of [solve] that
    returns gives back the best solution that the solver held before the
    call, (none, +infinity) on a new solver.  It has run every iteration:
    the store ends as the initial one decayed once per iteration, and
    each iteration has printed its line with that best fee. *)
Theorem solve_without_route (start_node end_node : node) (payment_amount : Q)
    (w : World) (r : option (list node) * float) :
  (forall p, ~ simple_path (hop (graph (self w)) payment_amount)
                 start_node end_node p) ->
  fst (solve start_node end_node payment_amount w) = Ok r ->
  r = (best_path (self w), best_path_fee (self w))
  /\ pheromones (self (snd (solve start_node end_node payment_amount w)))
     = Nat.iter (Z.to_nat (iterations (self w)))
         (evaporate (evaporation_rate (self w)))
         (pheromones (self (snd (_initialize_pheromones w))))
  /\ exists ls,
       stdout (snd (solve start_node end_node payment_amount w)) = stdout w ++ ls
       /\ length ls = Z.to_nat (iterations (self w))
       /\ Forall (fun l => line_best_fee l = best_path_fee (self w)) ls.
Proof.
  intros Hno.
  pose proof (solve_run start_node end_node payment_amount w) as Hrun.
  destruct (for_each _ _ _) as [[[]|err] w1] eqn:E; rewrite Hrun; [|done].
  apply (for_each_no_route start_node end_node payment_amount (graph (self w)))
    in E as (Hs & Hd & ls & Ho & Hl & Hf); [|done|done].
  simpl in *. rewrite length_range in *. intros [= <-]. rewrite Hs. simpl.
  split; [done|]. split; [done|]. by exists ls.
Qed.

(** The way back from D to A in the demonstration network, with two ants
    and three iterations: no channel leads into A. *)
Lemma solve_without_route_witness :
  let w := world_of (LightningACO_init network 2 3 1 2 (1 # 2) 100) (always 0) in
  (None, Inf) = (best_path (self w), best_path_fee (self w))
  /\ pheromones (self (snd (solve "D" "A" 100 w)))
     = Nat.iter 3 (evaporate (1 # 2)) (pheromones (self (snd (_initialize_pheromones w))))
  /\ exists ls,
       stdout (snd (solve "D" "A" 100 w)) = [] ++ ls
       /\ length ls = 3%nat
       /\ Forall (fun l => line_best_fee l = Inf) ls.
Proof.
  apply (solve_without_route "D" "A" 100
           (world_of (LightningACO_init network 2 3 1 2 (1 # 2) 100) (always 0))
           (None, Inf)).
  - simpl. intros p Hp.
    apply simple_path_ends in Hp as [_ [u (ch & Hch & Hd & _)]]; [|done].
    assert (H : forall u ch, ch ∈ get_outgoing_channels network u ->
                             destination ch <> "A")
      by (unfold network; each_channel).
    by apply (H u ch).
  - by vm_compute.
Defined.

(** X14: when the start node is not the end node and every channel out
    of the start node has a capacity below the payment amount, [solve]
    raises nothing and returns the best solution that the solver held
    before the call, (none, +infinity) on a new solver.  No agent takes a
    step: the generator is not consulted.  Every iteration still decays
    the store and prints its line. *)
Theorem solve_underfunded (start_node end_node : node) (payment_amount : Q)
    (w : World) :
  start_node <> end_node ->
  (forall ch, ch ∈ get_outgoing_channels (graph (self w)) start_node ->
              liquidity ch < payment_amount) ->
  let w' := snd (solve start_node end_node payment_amount w) in
  fst (solve start_node end_node payment_amount w)
  = Ok (best_path (self w), best_path_fee (self w))
  /\ cursor w' = cursor w
  /\ pheromones (self w')
     = Nat.iter (Z.to_nat (iterations (self w)))
         (evaporate (evaporation_rate (self w)))
         (pheromones (self (snd (_initialize_pheromones w))))
  /\ exists ls, stdout w' = stdout w ++ ls
                /\ length ls = Z.to_nat (iterations (self w)).
Proof.
  intros Hne Hlow w'. subst w'.
  pose proof (solve_run start_node end_node payment_amount w) as Hrun.
  rewrite (for_each_underfunded start_node end_node payment_amount Hne) in Hrun
    by done.
  rewrite Hrun. simpl.
  destruct (idle_turns_config (range (iterations (self w)))
              (snd (_initialize_pheromones w))) as (Hs & Hc & _ & ls & Ho & Hl).
  simpl in *. rewrite Hs, Hc, Ho, length_range in *. simpl.
  repeat split; try done. by exists ls.
Qed.

(** A payment of 2000 from A to D in the demonstration network: both
    channels out of A carry 1000. *)
Lemma solve_underfunded_witness :
  let w := world_of (LightningACO_init network 20 50 1 2 (1 # 2) 100) (always 0) in
  let w' := snd (solve "A" "D" 2000 w) in
  fst (solve "A" "D" 2000 w) = Ok (None, Inf)
  /\ cursor w' = 0%nat
  /\ pheromones (self w')
     = Nat.iter 50 (evaporate (1 # 2)) (pheromones (self (snd (_initialize_pheromones w))))
  /\ exists ls, stdout w' = [] ++ ls /\ length ls = 50%nat.
Proof.
  apply (solve_underfunded "A" "D" 2000
           (world_of (LightningACO_init network 20 50 1 2 (1 # 2) 100) (always 0))).
  - done.
  - simpl. intros ch Hch.
    repeat (apply elem_of_cons in Hch as [->|Hch]; [by vm_compute|]).
    by apply elem_of_nil in Hch.
Defined.

(** X15: what [solve] returns is the best solution the solver held at the
    call, or a path from the start node to the end node along feasible
    channels together with the sum of the fees of these channels, a fee
    that does not exceed the one held at the call. *)
Theorem solve_returns_priced_path (start_node end_node : node) (payment_amount : Q)
    (w : World) (bp : option (list node)) (bf : float) :
  fst (solve start_node end_node payment_amount w) = Ok (bp, bf) ->
  (bp = best_path (self w) /\ bf = best_path_fee (self w))
  \/ (exists p, bp = Some p
                /\ priced (graph (self w)) start_node end_node payment_amount p bf
                /\ float_le bf (best_path_fee (self w))).
Proof.
  intros H.
  pose proof (solve_steps start_node end_node payment_amount w) as Hs.
  unfold wp in Hs. rewrite H in Hs. destruct Hs as [Hsteps [= -> ->]].
  apply steps_invariant in Hsteps as (_ & Hle & [Hb|(p & Hp & Hpr)]).
  - by left.
  - right. by exists p.
Qed.

(** The demonstration network, one ant and two iterations: the call
    returns A -> B -> D at fee 2.2. *)
Lemma solve_returns_priced_path_witness :
  let w := world_of (LightningACO_init network 1 2 1 2 (1 # 2) 100) high_then_low in
  (Some ["A"; "B"; "D"] = best_path (self w)
   /\ Fin 2.200000 = best_path_fee (self w))
  \/ (exists p, Some ["A"; "B"; "D"] = Some p
                /\ priced (graph (self w)) "A" "D" 100 p (Fin 2.200000)
                /\ float_le (Fin 2.200000) (best_path_fee (self w))).
Proof.
  apply (solve_returns_priced_path "A" "D" 100
           (world_of (LightningACO_init network 1 2 1 2 (1 # 2) 100) high_then_low)).
  by vm_compute.
Defined.

(** X16: a call of [solve] that returns has printed one line per
    iteration, numbered from 1 in order, each with the iteration count of
    the solver; the fee on the last line is the fee returned. *)
Theorem solve_prints_numbered_lines (start_node end_node : node)
    (payment_amount : Q) (w : World) (bp : option (list node)) (bf : float) :
  fst (solve start_node end_node payment_amount w) = Ok (bp, bf) ->
  exists ls,
    stdout (snd (solve start_node end_node payment_amount w)) = stdout w ++ ls
    /\ map line_iteration ls = map (fun i => i + 1)%Z (range (iterations (self w)))
    /\ Forall (fun l => line_iterations l = iterations (self w)) ls
    /\ (forall l, last ls = Some l -> line_best_fee l = bf).
Proof.
  pose proof (solve_run start_node end_node payment_amount w) as Hrun.
  destruct (for_each _ _ _) as [[[]|err] w1] eqn:E; rewrite Hrun; [|done].
  apply for_each_lines in E as (_ & ls & Ho & Hn & Hf & Hl).
  simpl. intros [= <- <-]. by exists ls.
Qed.

(** The demonstration network, one ant and two iterations. *)
Lemma solve_prints_numbered_lines_witness :
  let w := world_of (LightningACO_init network 1 2 1 2 (1 # 2) 100) high_then_low in
  exists ls,
    stdout (snd (solve "A" "D" 100 w)) = stdout w ++ ls
    /\ map line_iteration ls = map (fun i => i + 1)%Z (range (iterations (self w)))
    /\ Forall (fun l => line_iterations l = iterations (self w)) ls
    /\ (forall l, last ls = Some l -> line_best_fee l = Fin 2.200000).
Proof.
  apply (solve_prints_numbered_lines "A" "D" 100
           (world_of (LightningACO_init network 1 2 1 2 (1 # 2) 100) high_then_low)
           (Some ["A"; "B"; "D"])).
  by vm_compute.
Defined.

(** X17: whatever its outcome, a call of [solve] leaves the topology and
    the parameters of the solver as they were and consults the same
    generator, and the best fee the solver holds after the call does not
    exceed the one it held before. *)
Theorem solve_keeps_configuration (start_node end_node : node)
    (payment_amount : Q) (w : World) :
  same_config (self w) (self (snd (solve start_node end_node payment_amount w)))
  /\ draws (snd (solve start_node end_node payment_amount w)) = draws w
  /\ float_le
       (best_path_fee (self (snd (solve start_node end_node payment_amount w))))
       (best_path_fee (self w)).
Proof.
  destruct (solve_spec start_node end_node payment_amount w)
    as ((Hc & Hd & Hf & _) & _).
  done.
Qed.


